(** * envsync: synchronising a source env file into a target env file

    A shallow embedding of the Go package [envsync].  The repository holds
    two versions of the package:

    - [envsync.go], the flat variant: [Sync] checks the result of the backup
      copy and [writeEnv] writes one [key=value] line per key, each with its
      own [WriteString];
    - the grouped variant: [Sync] ignores the result of the backup copy,
      [appendNewEnv] also returns the added subset, and [writeEnv] builds one
      buffer in which the keys are clustered under [# group] headers.

    Go strings are byte sequences; they are modelled by [string], whose
    characters are the 256 values of [ascii].  Go maps are [gmap string
    string].  The file system is a finite map from paths to file contents,
    threaded through the [io] monad below. *)

From stdpp Require Import gmap strings list fin_maps sorting.
From Stdlib Require Import Ascii NArith.

(** ** Bytes *)

Definition LF : ascii := "010"%char.
Definition CR : ascii := "013"%char.
Definition newline : string := String LF EmptyString.

(** The package constants. *)
Definition separator : ascii := "="%char.
Definition splitNumber : nat := 2.

(** ** The [strings] package *)

(** [strings.Cut]-like helper: the text before and after the first [sep]. *)
Fixpoint Cut (s : string) (sep : ascii) : option (string * string) :=
  match s with
  | EmptyString => None
  | String c rest =>
      if Ascii.eqb c sep then Some (EmptyString, rest)
      else match Cut rest sep with
           | Some (before, after) => Some (String c before, after)
           | None => None
           end
  end.

(** [strings.SplitN(s, sep, 2)]: at most two parts, split at the first [sep]. *)
Definition SplitN_2 (s : string) (sep : ascii) : list string :=
  match Cut s sep with
  | Some (before, after) => [before; after]
  | None => [s]
  end.

(** [strings.Split(s, sep)]: all the parts between separators; never empty. *)
Fixpoint Split (s : string) (sep : ascii) : list string :=
  match s with
  | EmptyString => [EmptyString]
  | String c rest =>
      if Ascii.eqb c sep then EmptyString :: Split rest sep
      else match Split rest sep with
           | part :: parts => String c part :: parts
           | [] => [String c EmptyString]
           end
  end.

(** [strings.HasPrefix(s, prefix)]. *)
Definition HasPrefix (s prefix : string) : bool := String.prefix prefix s.

(** ** The [bufio] scanner with [bufio.ScanLines]

    [ScanLines] returns each line of the input stripped of its end-of-line
    marker, one optional carriage return followed by one mandatory newline;
    the last line is returned even without a newline, unless it is empty.
    The scanner's buffer holds at most [MaxScanTokenSize] bytes: when that
    many bytes hold no newline, [Scan] returns false with [ErrTooLong], and
    so the loop [for sc.Scan()] ends there.  [mapEnv] never reads [sc.Err()],
    so for it such a line is the end of the input. *)

Definition MaxScanTokenSize : N := 65536.

Definition too_long (line : string) : bool :=
  (MaxScanTokenSize <=? N.of_nat (String.length line))%N.

(** [dropCR]: drop one trailing carriage return. *)
Fixpoint dropCR (data : string) : string :=
  match data with
  | EmptyString => EmptyString
  | String c rest =>
      match rest with
      | EmptyString => if Ascii.eqb c CR then EmptyString else data
      | String _ _ => String c (dropCR rest)
      end
  end.

(** The tokens delivered by successive [sc.Scan()] calls, from the raw lines
    (the parts of the input between newlines). *)
Fixpoint scan (lines : list string) : list string :=
  match lines with
  | [] => []
  | line :: rest =>
      match rest with
      | [] =>
          (* at EOF: nothing left, or a final line without newline *)
          if decide (line = EmptyString) then []
          else if too_long line then [] else [dropCR line]
      | _ :: _ =>
          if too_long line then [] else dropCR line :: scan rest
      end
  end.

Definition ScanLines (data : string) : list string := scan (Split data LF).

(** ** Errors *)

Inductive error : Type :=
| Errorf_split (text : string)
    (* fmt.Errorf("couldn't split %s by '=' into two strings", text) *)
| OsError (op : string)
    (* an error of the operating system: open, cp, write *)
| Wrap (cause : error) (message : string).
    (* errors.Wrap(cause, message) *)


(** ** The parser, [mapEnv] (the same in both variants) *)

(** The body of [for sc.Scan() { ... }] over the remaining tokens. *)
Fixpoint mapEnv_loop (res : gmap string string) (tokens : list string)
  : gmap string string * option error :=
  match tokens with
  | [] => (res, None)
  | text :: tokens =>
      if decide (text = EmptyString) then mapEnv_loop res tokens
      else if HasPrefix text "#" then mapEnv_loop res tokens
      else match SplitN_2 text separator with
           | [k; v] => mapEnv_loop (<[k := v]> res) tokens
           | _ => (res, Some (Errorf_split text))
           end
  end.

Definition mapEnv (data : string) : gmap string string * option error :=
  mapEnv_loop ∅ (ScanLines data).

(** ** The file system and the [io] monad

    A file system maps a path to the bytes of the regular file there.  An
    [io] computation either fails with an error or returns a value, and
    leaves a file system in both cases.  Which system calls fail is not
    decided by the program; [faults] fixes it for one call of [Sync]:
    whether the backup copy fails, and which calls of [WriteString],
    counted from 0, fail.  A failing copy or write leaves the files as they
    were.  [Truncate] and [Seek] on the open target do not fail. *)

Record faults : Type := Faults {
  backup_copy_fails : bool;
  write_fails : nat → bool
}.

Definition io (A : Type) : Type :=
  gmap string string → (error + A) * gmap string string.

#[global] Instance io_ret : MRet io := λ A a fs, (inr a, fs).
#[global] Instance io_bind : MBind io := λ A B f m fs,
  match m fs with
  | (inl e, fs') => (inl e, fs')
  | (inr a, fs') => f a fs'
  end.

Definition fail {A} (e : error) : io A := λ fs, (inl e, fs).

(** Run [m] and wrap its error, if any, with [message]. *)
Definition wrapped {A} (m : io A) (message : string) : io A := λ fs,
  match m fs with
  | (inl e, fs') => (inl (Wrap e message), fs')
  | r => r
  end.

(** Run a command whose result the caller drops. *)
Definition dropped {A} (m : io A) : io unit := λ fs,
  (inr (), snd (m fs)).

(** [os.Open] and [os.OpenFile] without [O_CREATE]: the file must exist.
    The handle is the path. *)
Definition Open (name : string) : io string := λ fs,
  match fs !! name with
  | Some _ => (inr name, fs)
  | None => (inl (OsError "open"), fs)
  end.

(** The bytes a reader positioned at the start of [file] sees. *)
Definition ReadAll (file : string) : io string := λ fs,
  (inr (default EmptyString (fs !! file)), fs).

(** [file.Truncate(0)]. *)
Definition Truncate (file : string) : io unit := λ fs,
  (inr (), <[file := EmptyString]> fs).

(** [file.WriteString(s)] on a handle opened with [O_APPEND]; [n] counts the
    calls. *)
Definition WriteString (flt : faults) (n : nat) (file s : string) : io unit :=
  λ fs,
    if write_fails flt n then (inl (OsError "write"), fs)
    else (inr (), <[file := default EmptyString (fs !! file) +:+ s]> fs).

(** [cp src dst]: exit status and effect. *)
Definition cp (src dst : string) : io unit := λ fs,
  match fs !! src with
  | Some bytes => (inr (), <[dst := bytes]> fs)
  | None => (inl (OsError "cp"), fs)
  end.

(** [exec.Command("cp", "-f", target, backupFile).Run()]. *)
Definition cp_backup (flt : faults) (target backupFile : string) : io unit :=
  if backup_copy_fails flt then fail (OsError "cp") else cp target backupFile.

(** [rm -f file] and [rm -rf file] on a regular file. *)
Definition rm (file : string) (fs : gmap string string) : gmap string string :=
  delete file fs.

(** The deferred function of [Sync]:
    [if err != nil { cp backupFile target }; rm backupFile],
    where the results of both commands are dropped. *)
Definition cleanup (err : option error) (backupFile target : string)
    (fs : gmap string string) : gmap string string :=
  let fs :=
    match err with
    | Some _ => snd (dropped (cp backupFile target) fs)
    | None => fs
    end in
  rm backupFile fs.

(** [mapEnv(file)] on an open file. *)
Definition mapEnv_file (file : string) : io (gmap string string) :=
  data ← ReadAll file;
  match mapEnv data with
  | (_, Some e) => fail e
  | (res, None) => mret res
  end.

(** The value of a Go [error] result. *)
Definition result_error {A} (r : error + A) : option error :=
  match r with
  | inl e => Some e
  | inr _ => None
  end.

(** [sort.Strings]: ascending byte-wise lexicographic order. *)
Definition sort_Strings (keys : list string) : list string :=
  merge_sort String.le keys.

(** [for k := range env { keys = append(keys, k) }], in the order in which
    the runtime happens to enumerate the map. *)
Definition range_keys (env : gmap string string) : list string :=
  (map_to_list env).*1.

(** [fmt.Sprintf("%s=%s\n", k, v)]. *)
Definition valueFmt (k v : string) : string :=
  k +:+ "=" +:+ v +:+ newline.

(** ** The flat variant, [envsync.go] *)

Module Flat.

(** [appendNewEnv], over the pairs of [sMap] in enumeration order. *)
Definition appendNewEnv_range (pairs : list (string * string))
    (tMap : gmap string string) : gmap string string :=
  foldl (λ tMap kv,
           match tMap !! kv.1 with
           | Some _ => tMap
           | None => <[kv.1 := kv.2]> tMap
           end) tMap pairs.

Definition appendNewEnv (sMap tMap : gmap string string)
  : gmap string string :=
  appendNewEnv_range (map_to_list sMap) tMap.

(** The writing loop of [writeEnv] from its [i]-th iteration on. *)
Fixpoint writeEnv_loop (flt : faults) (i : nat) (file : string)
    (env : gmap string string) (keys : list string) : io unit :=
  match keys with
  | [] => mret ()
  | k :: keys =>
      _ ← wrapped (WriteString flt i file (valueFmt k (env !!! k)))
            ("error when writing key: " +:+ k +:+ ", and value: "
             +:+ env !!! k);
      writeEnv_loop flt (S i) file env keys
  end.

(** [writeEnv] once the keys were collected in the order [keys]. *)
Definition writeEnv_from (keys : list string) (flt : faults)
    (file : string) (env : gmap string string) : io unit :=
  writeEnv_loop flt 0 file env (sort_Strings keys).

Definition writeEnv (flt : faults) (file : string)
    (env : gmap string string) : io unit :=
  writeEnv_from (range_keys env) flt file env.

(** The statements of [Sync] after the first [defer]. *)
Definition Sync_body (flt : faults) (source target backupFile : string)
  : io unit :=
  sFile ← wrapped (Open source) "couldn't open source file";
  tFile ← wrapped (Open target) "couldn't open target file";
  sMap ← mapEnv_file sFile;
  tMap ← mapEnv_file tFile;
  _ ← cp_backup flt target backupFile;
  let addedEnv := appendNewEnv sMap tMap in
  _ ← Truncate tFile;
  wrapped (writeEnv flt tFile addedEnv) "couldn't write target file".

(** [Sync].  The deferred call is [defer func(err error) {...}(err)]: its
    argument is evaluated when the [defer] statement runs, right after
    [var err error], so the function receives nil whatever happens later. *)
Definition Sync (flt : faults) (source target : string)
    (fs : gmap string string) : option error * gmap string string :=
  let err : option error := None in
  let backupFile := target +:+ ".bak" in
  let deferred := cleanup err backupFile target in
  let '(r, fs') := Sync_body flt source target backupFile fs in
  (result_error r, deferred fs').

End Flat.

(** ** The grouped variant *)

Module Grouped.

(** [appendNewEnv]: the merged map and the added subset. *)
Definition appendNewEnv_range (pairs : list (string * string))
    (tMap : gmap string string)
  : gmap string string * gmap string string :=
  foldl (λ acc kv,
           match acc.1 !! kv.1 with
           | Some _ => acc
           | None => (<[kv.1 := kv.2]> acc.1, <[kv.1 := kv.2]> acc.2)
           end) (tMap, ∅) pairs.

Definition appendNewEnv (sMap tMap : gmap string string)
  : gmap string string * gmap string string :=
  appendNewEnv_range (map_to_list sMap) tMap.

(** [prefix]: [strings.Split(key, "_")[0]]. *)
Definition prefix (key : string) : string :=
  default EmptyString (head (Split key "_"%char)).

(** [fmt.Sprintf(groupComment, g)] for the two formats. *)
Definition firstGroupFmt (g : string) : string := "# " +:+ g +:+ newline.
Definition groupFmt (g : string) : string :=
  newline +:+ "# " +:+ g +:+ newline.

(** The loop of [writeEnv] from its [i]-th iteration on: the state is the
    current [group] and the buffer [buff]; the result is the buffer. *)
Fixpoint writeEnv_loop (env : gmap string string) (i : nat)
    (group buff : string) (keys : list string) : string :=
  match keys with
  | [] => buff
  | k :: keys =>
      let g := prefix k in
      let '(group, buff) :=
        if decide (g ≠ group) then
          (g, buff +:+ (if decide (i = 0) then firstGroupFmt g
                        else groupFmt g))
        else (group, buff) in
      writeEnv_loop env (S i) group
        (buff +:+ valueFmt k (env !!! k)) keys
  end.

(** [buff.String()] at the end of the loop. *)
Definition writeEnv_buffer (keys : list string) (env : gmap string string)
  : string :=
  writeEnv_loop env 0 EmptyString EmptyString (sort_Strings keys).

Definition writeEnv_from (keys : list string) (flt : faults)
    (file : string) (env : gmap string string) : io unit :=
  let buff := writeEnv_buffer keys env in
  wrapped (WriteString flt 0 file buff)
    ("error when writing file " +:+ buff).

Definition writeEnv (flt : faults) (file : string)
    (env : gmap string string) : io unit :=
  writeEnv_from (range_keys env) flt file env.

(** The statements of [Sync] after the first [defer].  The result of the
    backup copy is dropped.  [s.print] only writes the added subset to
    the standard output and is left out. *)
Definition Sync_body (flt : faults) (source target backupFile : string)
  : io unit :=
  sFile ← wrapped (Open source) "couldn't open source file";
  tFile ← wrapped (Open target) "couldn't open target file";
  sMap ← mapEnv_file sFile;
  tMap ← mapEnv_file tFile;
  _ ← dropped (cp_backup flt target backupFile);
  let '(newEnv, additionalEnv) := appendNewEnv sMap tMap in
  _ ← Truncate tFile;
  wrapped (writeEnv flt tFile newEnv) "couldn't write target file".

Definition Sync (flt : faults) (source target : string)
    (fs : gmap string string) : option error * gmap string string :=
  let err : option error := None in
  let backupFile := target +:+ ".bak" in
  let deferred := cleanup err backupFile target in
  let '(r, fs') := Sync_body flt source target backupFile fs in
  (result_error r, deferred fs').

End Grouped.

(** ** Notions used in the statements *)

(** [c] occurs in [s]. *)
Fixpoint contains (s : string) (c : ascii) : bool :=
  match s with
  | EmptyString => false
  | String a rest => if Ascii.eqb a c then true else contains rest c
  end.

(** The text of [s] before its first [c] (all of [s] without a [c]). *)
Fixpoint before (c : ascii) (s : string) : string :=
  match s with
  | EmptyString => EmptyString
  | String a rest =>
      if Ascii.eqb a c then EmptyString else String a (before c rest)
  end.

(** The text of [s] after its first [c]. *)
Fixpoint after (c : ascii) (s : string) : string :=
  match s with
  | EmptyString => EmptyString
  | String a rest => if Ascii.eqb a c then rest else after c rest
  end.

(** The last byte of [s]. *)
Fixpoint last_byte (s : string) : option ascii :=
  match s with
  | EmptyString => None
  | String a rest =>
      match rest with
      | EmptyString => Some a
      | String _ _ => last_byte rest
      end
  end.

Definition starts_with (s : string) (c : ascii) : bool :=
  match s with
  | EmptyString => false
  | String a _ => Ascii.eqb a c
  end.

(** What a line of an env file is, in the words of the file format. *)
Inductive line_class : Type :=
| Skipped                     (* blank, or a comment *)
| Entry (k v : string)        (* KEY=VALUE *)
| Invalid.                    (* anything else *)

Definition classify (line : string) : line_class :=
  if decide (line = EmptyString) then Skipped
  else if starts_with line "#" then Skipped
  else if contains line "=" then Entry (before "=" line) (after "=" line)
  else Invalid.

(** The mapping built from a sequence of lines, a later entry replacing an
    earlier one with the same key. *)
Definition add_line (res : gmap string string) (line : string)
  : gmap string string :=
  match classify line with
  | Entry k v => <[k := v]> res
  | _ => res
  end.


(** The concatenation of a list of strings. *)
Definition join (parts : list string) : string :=
  foldr String.append EmptyString parts.

(** The text whose lines are [lines], each ended by a newline. *)
Definition terminated (lines : list string) : string :=
  join ((λ line, line +:+ newline) <$> lines).

(** The text of the flat writer for keys in the order [sorted]. *)
Definition flat_text (env : gmap string string) (sorted : list string)
  : string :=
  join ((λ k, valueFmt k (env !!! k)) <$> sorted).

(** The text of the grouped writer in the words of its description: a
    header whenever the group label differs from the label [prev] of the key
    before, with a leading blank line unless the key is the [first]. *)
Fixpoint grouped_text (env : gmap string string) (first : bool)
    (prev : string) (sorted : list string) : string :=
  match sorted with
  | [] => EmptyString
  | k :: rest =>
      let g := before "_" k in
      (if decide (g = prev) then EmptyString
       else if first then "# " +:+ g +:+ newline
       else newline +:+ "# " +:+ g +:+ newline)
      +:+ valueFmt k (env !!! k)
      +:+ grouped_text env false g rest
  end.

(** The lines of the grouped writer's text, without their newlines. *)
Fixpoint grouped_lines (env : gmap string string) (first : bool)
    (prev : string) (sorted : list string) : list string :=
  match sorted with
  | [] => []
  | k :: rest =>
      let g := before "_" k in
      (if decide (g = prev) then []
       else if first then ["# " +:+ g]
       else [EmptyString; "# " +:+ g])
      ++ (k +:+ "=" +:+ env !!! k) :: grouped_lines env false g rest
  end.

(** A key and a value as the file format wants them: no separator, no
    newline and no leading [#] in the key, no newline in the value. *)
Definition well_formed (k v : string) : Prop :=
  contains k "=" = false ∧ contains k LF = false ∧
  starts_with k "#" = false ∧ contains v LF = false.

(** What the scanner asks of a written line [k=v] to give it back: the
    value does not end with a carriage return, and the line fits the
    scanner's buffer. *)
Definition scannable (k v : string) : Prop :=
  last_byte v ≠ Some CR ∧ too_long (k +:+ "=" +:+ v) = false.

(** The same for the header of the group of [k]. *)
Definition scannable_header (k : string) : Prop :=
  too_long ("# " +:+ before "_" k) = false.

(** The files after a [Sync] that wrote [text] to the target: the target
    holds [text], the backup is gone, the other files are as before. *)
Definition synced (target text : string) (fs fs' : gmap string string)
  : Prop :=
  fs' !! target = Some text ∧ fs' !! (target +:+ ".bak") = None ∧
  ∀ path, path ≠ target → path ≠ target +:+ ".bak" →
          fs' !! path = fs !! path.

#[global] Instance well_formed_dec k v : Decision (well_formed k v).
Proof. unfold well_formed. apply _. Defined.

#[global] Instance scannable_dec k v : Decision (scannable k v).
Proof. unfold scannable. apply _. Defined.

#[global] Instance scannable_header_dec k : Decision (scannable_header k).
Proof. unfold scannable_header. apply _. Defined.

(** The mappings whose values do not end with a carriage return, and those
    whose group headers fit the scanner's buffer. *)
Definition no_trailing_CR (m : gmap string string) : Prop :=
  map_Forall (λ _ v, last_byte v ≠ Some CR) m.

Definition headers_fit (m : gmap string string) : Prop :=
  map_Forall (λ k _, scannable_header k) m.

#[global] Instance no_trailing_CR_dec m : Decision (no_trailing_CR m).
Proof. unfold no_trailing_CR. apply _. Defined.

#[global] Instance headers_fit_dec m : Decision (headers_fit m).
Proof. unfold headers_fit. apply _. Defined.

(** The original target mapping united with the source mapping restricted
    to the keys absent from the target. *)
Definition merged (sMap tMap : gmap string string) : gmap string string :=
  tMap ∪ filter (λ kv, tMap !! kv.1 = None) sMap.

(** No system call fails. *)
Definition no_faults : faults := Faults false (λ _, false).

(** ** Example files *)

Definition example_source : string :=
  "FOO=1" +:+ newline +:+ "BAR=2" +:+ newline.

Definition example_target : string := "FOO=0" +:+ newline.

Definition example_fs : gmap string string :=
  <["source.env" := example_source]>
    (<["target.env" := example_target]> ∅).

Definition example_env : gmap string string :=
  <["ZEBRA" := "1"]> (<["APPLE" := "2"]> (<["apple_b" := "3"]> ∅)).

(** Every write fails. *)
Definition write_faults : faults := Faults false (λ _, true).

(** The backup copy fails. *)
Definition copy_faults : faults := Faults true (λ _, false).

(** A line of 70000 bytes, more than the scanner's buffer holds. *)
Fixpoint repeat_byte (c : ascii) (n : nat) : string :=
  match n with
  | 0 => EmptyString
  | S n => String c (repeat_byte c n)
  end.

Definition long_line : string := repeat_byte "x" (N.to_nat 70000).

Definition long_fs : gmap string string :=
  <["source.env" := long_line]>
    (<["target.env" := "A=1" +:+ newline]> ∅).


(** A mapping whose value ends with a carriage return. *)
Definition cr_env : gmap string string :=
  <["A" := String "x" (String CR EmptyString)]> ∅.

(** Keys of another group sort between the keys of the group [DB]. *)
Definition db_env : gmap string string :=
  <["DB" := "a"]> (<["DB2" := "b"]> (<["DB_HOST" := "c"]> ∅)).

(** A valid line of more than 70000 bytes between two lines that set [A]. *)
Definition long_entry : string :=
  "B" +:+ "=" +:+ repeat_byte "x" (N.to_nat 70000).

Definition shadowed_file : string :=
  terminated ["A=1"; long_entry; "A=2"].

(** A mapping whose only line has more than 70000 bytes. *)
Definition long_env : gmap string string :=
  <["B" := repeat_byte "x" (N.to_nat 70000)]> ∅.

(** ** The report of the grouped variant *)

Module Stdout.

(** [print]: what it writes to the standard output, once the keys of [env]
    were collected in the order [keys]: [fmt.Println("New env added")] when
    there is a key, then [fmt.Printf(valueFmt, k, env[k])] for the sorted
    keys. *)
Definition print_from (keys : list string) (env : gmap string string)
  : string :=
  let keys := sort_Strings keys in
  (if decide (0 < length keys) then "New env added" +:+ newline
   else EmptyString)
  +:+ join ((λ k, valueFmt k (env !!! k)) <$> keys).

Definition print (env : gmap string string) : string :=
  print_from (range_keys env) env.

End Stdout.

(** ** Further notions used in the statements *)

(** The entries of the source whose keys the target lacks. *)
Definition absent_from (tMap sMap : gmap string string)
  : gmap string string :=
  filter (λ kv, tMap !! kv.1 = None) sMap.

(** A line that is neither blank nor a comment. *)
Definition is_data (line : string) : bool :=
  negb (bool_decide (line = EmptyString)) && negb (starts_with line "#").

(** The text whose lines are [lines], each ended by a carriage return and
    a newline. *)
Definition terminated_crlf (lines : list string) : string :=
  terminated ((λ line, line +:+ String CR EmptyString) <$> lines).

(** A file with comments, blank lines and Windows line ends. *)
Definition commented_lines : list string :=
  ["# database"; "DB_HOST=localhost"; EmptyString; "DB_PORT=5432"].


(** What every call of [Sync] on [target] leaves of the files [fs]: no
    backup file, the paths other than the target and the backup as they
    were, and a target exactly if there was one. *)
Definition left_by_Sync (target : string) (fs fs' : gmap string string)
  : Prop :=
  fs' !! (target +:+ ".bak") = None ∧
  (∀ path, path ≠ target → path ≠ target +:+ ".bak" →
           fs' !! path = fs !! path) ∧
  (is_Some (fs' !! target) ↔ is_Some (fs !! target)).

(** * Properties *)

(** ** Strings *)

Section strings.
Implicit Types (s t : string) (c : ascii).

Lemma append_nil_l t : EmptyString +:+ t = t.
Proof. reflexivity. Qed.

Lemma append_cons a s t : String a s +:+ t = String a (s +:+ t).
Proof. reflexivity. Qed.

Lemma append_nil_r s : s +:+ EmptyString = s.
Proof. induction s; rewrite ?append_cons, ?append_nil_l; congruence. Qed.

Lemma append_assoc s t u : (s +:+ t) +:+ u = s +:+ t +:+ u.
Proof. induction s; rewrite ?append_cons, ?append_nil_l; congruence. Qed.

Lemma length_append s t :
  String.length (s +:+ t) = String.length s + String.length t.
Proof.
  induction s; rewrite ?append_cons, ?append_nil_l; simpl; congruence.
Qed.

Lemma contains_append s t c :
  contains (s +:+ t) c = contains s c || contains t c.
Proof.
  induction s as [|a s IH]; rewrite ?append_cons, ?append_nil_l; simpl;
    [done|].
  by destruct (Ascii.eqb a c).
Qed.

Lemma Cut_contains s c : Cut s c = None ↔ contains s c = false.
Proof.
  induction s as [|a s IH]; simpl; [done|].
  destruct (Ascii.eqb a c); [done|].
  destruct (Cut s c) as [[??]|]; [|tauto].
  split; [done|]. intros H. by apply IH in H.
Qed.

Lemma Cut_before_after s c :
  contains s c = true → Cut s c = Some (before c s, after c s).
Proof.
  induction s as [|a s IH]; simpl; [done|].
  destruct (Ascii.eqb a c); [done|]. intros H. by rewrite IH.
Qed.

Lemma before_append k v c :
  contains k c = false → before c (k +:+ String c v) = k.
Proof.
  induction k as [|a k IH]; rewrite ?append_cons, ?append_nil_l; simpl.
  - by rewrite Ascii.eqb_refl.
  - destruct (Ascii.eqb a c); [done|]. intros H. by rewrite IH.
Qed.

Lemma after_append k v c :
  contains k c = false → after c (k +:+ String c v) = v.
Proof.
  induction k as [|a k IH]; rewrite ?append_cons, ?append_nil_l; simpl.
  - by rewrite Ascii.eqb_refl.
  - destruct (Ascii.eqb a c); [done|]. intros H. by rewrite IH.
Qed.

Lemma before_no_sep s c : contains (before c s) c = false.
Proof.
  induction s as [|a s IH]; simpl; [done|].
  destruct (Ascii.eqb a c) eqn:E; simpl; [done|]. by rewrite E.
Qed.

Lemma before_after s c :
  contains s c = true → s = before c s +:+ String c (after c s).
Proof.
  induction s as [|a s IH]; simpl; [done|].
  destruct (Ascii.eqb a c) eqn:E.
  - apply Ascii.eqb_eq in E as ->. done.
  - intros H. rewrite append_cons. by rewrite <-IH.
Qed.


Lemma contains_before s c d :
  contains s d = false → contains (before c s) d = false.
Proof.
  induction s as [|a s IH]; simpl; [done|].
  destruct (Ascii.eqb a d) eqn:E; [done|]. intros H.
  destruct (Ascii.eqb a c); simpl; [done|]. by rewrite E, IH.
Qed.

Lemma length_before s c : String.length (before c s) ≤ String.length s.
Proof.
  induction s as [|a s IH]; simpl; [done|].
  destruct (Ascii.eqb a c); simpl; lia.
Qed.

Lemma Split_head s c : head (Split s c) = Some (before c s).
Proof.
  induction s as [|a s IH]; simpl; [done|].
  destruct (Ascii.eqb a c); [done|].
  destruct (Split s c); simpl in *; congruence.
Qed.

Lemma Split_no_sep s c : contains s c = false → Split s c = [s].
Proof.
  induction s as [|a s IH]; simpl; [done|].
  destruct (Ascii.eqb a c); [done|]. intros H. by rewrite IH.
Qed.

Lemma Split_append s t c :
  contains s c = false → Split (s +:+ String c t) c = s :: Split t c.
Proof.
  induction s as [|a s IH]; rewrite ?append_cons, ?append_nil_l; simpl.
  - by rewrite Ascii.eqb_refl.
  - destruct (Ascii.eqb a c); [done|]. intros H. by rewrite IH.
Qed.

Lemma HasPrefix_hash s : HasPrefix s "#" = starts_with s "#".
Proof.
  destruct s as [|a s]; [done|].
  change (HasPrefix (String a s) "#")
    with (if ascii_dec "#" a then String.prefix EmptyString s else false).
  destruct (ascii_dec "#" a) as [<-|Hne].
  - by destruct s.
  - symmetry. apply Ascii.eqb_neq. congruence.
Qed.

Lemma starts_with_append s t c :
  s ≠ EmptyString → starts_with (s +:+ t) c = starts_with s c.
Proof. by destruct s. Qed.

Lemma dropCR_id s : last_byte s ≠ Some CR → dropCR s = s.
Proof.
  induction s as [|a s IH]; simpl; [done|].
  destruct s as [|b s].
  - intros H. destruct (Ascii.eqb a CR) eqn:E; [|done].
    apply Ascii.eqb_eq in E. congruence.
  - intros H. by rewrite IH.
Qed.

Lemma last_byte_append s a t :
  last_byte (s +:+ String a t) = last_byte (String a t).
Proof.
  induction s as [|b s IH]; [done|].
  rewrite append_cons. simpl.
  destruct s; rewrite ?append_cons, ?append_nil_l in *; done.
Qed.

Lemma length_dropCR s : String.length (dropCR s) ≤ String.length s.
Proof.
  induction s as [|a s IH]; simpl; [done|].
  destruct s as [|b s]; [destruct (Ascii.eqb a CR); simpl; lia|].
  simpl in *. lia.
Qed.

Lemma contains_dropCR s c :
  contains s c = false → contains (dropCR s) c = false.
Proof.
  induction s as [|a s IH]; simpl; [done|].
  destruct (Ascii.eqb a c) eqn:E; [done|]. intros H.
  destruct s as [|b s]; [destruct (Ascii.eqb a CR); simpl; by rewrite ?E|].
  change (contains (String a (dropCR (String b s))) c = false).
  simpl contains at 1. rewrite E. by apply IH.
Qed.

Lemma bak_neq s : s +:+ ".bak" ≠ s.
Proof.
  intros H. apply (f_equal String.length) in H.
  rewrite length_append in H. simpl in H. lia.
Qed.
End strings.

(** ** The parser *)

Section parser.
Implicit Types (res : gmap string string) (line : string).

Lemma SplitN_2_Cut line :
  SplitN_2 line separator =
    if contains line separator
    then [before separator line; after separator line] else [line].
Proof.
  unfold SplitN_2. destruct (contains line separator) eqn:E.
  - by rewrite Cut_before_after.
  - by apply Cut_contains in E as ->.
Qed.

(** One iteration of the scanning loop, by the class of its line. *)
Lemma mapEnv_loop_cons res line rest :
  mapEnv_loop res (line :: rest) =
    match classify line with
    | Skipped => mapEnv_loop res rest
    | Entry k v => mapEnv_loop (<[k := v]> res) rest
    | Invalid => (res, Some (Errorf_split line))
    end.
Proof.
  simpl. unfold classify. case_decide; [done|].
  rewrite HasPrefix_hash. destruct (starts_with line "#"); [done|].
  rewrite SplitN_2_Cut. unfold separator.
  by destruct (contains line "=").
Qed.

Lemma mapEnv_loop_valid res lines :
  Forall (λ line, classify line ≠ Invalid) lines →
  mapEnv_loop res lines = (foldl add_line res lines, None).
Proof.
  intros H. revert res. induction H as [|line lines Hl _ IH]; intros res.
  - done.
  - rewrite mapEnv_loop_cons. simpl. unfold add_line.
    destruct (classify line); by rewrite ?IH.
Qed.

Lemma mapEnv_loop_invalid res pre bad post :
  Forall (λ line, classify line ≠ Invalid) pre →
  classify bad = Invalid →
  mapEnv_loop res (pre ++ bad :: post) =
    (foldl add_line res pre, Some (Errorf_split bad)).
Proof.
  intros H Hbad. revert res. induction H as [|line lines Hl _ IH]; intros res.
  - simpl app. by rewrite mapEnv_loop_cons, Hbad.
  - simpl app. rewrite mapEnv_loop_cons. simpl foldl. unfold add_line at 2.
    destruct (classify line); by rewrite ?IH.
Qed.

(** Either all tokens are valid, or there is a first invalid one. *)
Lemma first_invalid lines :
  Forall (λ line, classify line ≠ Invalid) lines ∨
  ∃ pre bad post, lines = pre ++ bad :: post ∧
    Forall (λ line, classify line ≠ Invalid) pre ∧ classify bad = Invalid.
Proof.
  induction lines as [|line lines IH]; [by left|].
  destruct (classify line) eqn:E.
  - destruct IH as [IH|(pre & bad & post & -> & Hpre & Hbad)].
    + left. constructor; [congruence|done].
    + right. exists (line :: pre), bad, post. split; [done|].
      split; [|done]. constructor; [congruence|done].
  - destruct IH as [IH|(pre & bad & post & -> & Hpre & Hbad)].
    + left. constructor; [congruence|done].
    + right. exists (line :: pre), bad, post. split; [done|].
      split; [|done]. constructor; [congruence|done].
  - right. by exists [], line, lines.
Qed.

Lemma classify_entry k v :
  contains k "=" = false → starts_with k "#" = false →
  classify (k +:+ "=" +:+ v) = Entry k v.
Proof.
  intros Hk Hh. unfold classify.
  case_decide as Hnil.
  { apply (f_equal String.length) in Hnil.
    rewrite length_append in Hnil. simpl in Hnil. lia. }
  assert (starts_with (k +:+ "=" +:+ v) "#" = false) as ->.
  { destruct k; [done|]. by rewrite append_cons. }
  rewrite contains_append. simpl. rewrite orb_true_r.
  change ("=" +:+ v) with (String "=" v).
  by rewrite before_append, after_append.
Qed.

(** An entry line is its key, the separator and its value. *)
Lemma classify_Entry_inv line k v :
  classify line = Entry k v →
  line = k +:+ "=" +:+ v ∧ contains k "=" = false ∧
  starts_with k "#" = false.
Proof.
  unfold classify. case_decide; [done|].
  destruct (starts_with line "#") eqn:Hh; [done|].
  destruct (contains line "=") eqn:Hc; [|done].
  intros [= <- <-]. split; [by apply before_after|].
  split; [apply before_no_sep|].
  destruct line as [|a line]; [done|]. simpl in *.
  destruct (Ascii.eqb a "="); [done|]. done.
Qed.

Lemma add_line_other res line k :
  (∀ v, classify line ≠ Entry k v) →
  add_line res line !! k = res !! k.
Proof.
  intros H. unfold add_line. destruct (classify line) as [|k' v'|] eqn:E;
    [done| |done].
  rewrite lookup_insert_ne; [done|]. intros ->. by eapply H.
Qed.

Lemma foldl_add_line_other res lines k :
  Forall (λ line, ∀ v, classify line ≠ Entry k v) lines →
  foldl add_line res lines !! k = res !! k.
Proof.
  intros H. revert res. induction H as [|line lines Hl _ IH]; intros res;
    [done|].
  simpl. by rewrite IH, add_line_other.
Qed.

Lemma foldl_add_line_last res pre line post k v :
  classify line = Entry k v →
  Forall (λ line, ∀ v, classify line ≠ Entry k v) post →
  foldl add_line res (pre ++ line :: post) !! k = Some v.
Proof.
  intros Hl Hpost. rewrite foldl_app. simpl.
  rewrite foldl_add_line_other by done.
  unfold add_line at 1. rewrite Hl. apply lookup_insert_eq.
Qed.
End parser.

(** ** The scanner *)

Section scanner.
Implicit Types (line : string) (lines : list string).

Lemma join_cons part parts : join (part :: parts) = part +:+ join parts.
Proof. reflexivity. Qed.

Lemma join_app parts1 parts2 :
  join (parts1 ++ parts2) = join parts1 +:+ join parts2.
Proof.
  induction parts1 as [|part parts1 IH]; [done|].
  simpl app. by rewrite !join_cons, IH, append_assoc.
Qed.

Lemma terminated_cons line lines :
  terminated (line :: lines) = line +:+ String LF (terminated lines).
Proof.
  unfold terminated. rewrite fmap_cons, join_cons. unfold newline.
  by rewrite append_assoc, append_cons, append_nil_l.
Qed.

Lemma Split_terminated lines :
  Forall (λ line, contains line LF = false) lines →
  Split (terminated lines) LF = lines ++ [EmptyString].
Proof.
  induction 1 as [|line lines Hl _ IH]; [done|].
  by rewrite terminated_cons, Split_append, IH.
Qed.

Lemma scan_terminated lines :
  Forall (λ line, too_long line = false) lines →
  scan (lines ++ [EmptyString]) = dropCR <$> lines.
Proof.
  induction 1 as [|line lines Hl _ IH]; [done|].
  change (scan ((line :: lines) ++ [EmptyString]))
    with (match lines ++ [EmptyString] with
          | [] => if decide (line = EmptyString) then []
                  else if too_long line then [] else [dropCR line]
          | _ :: _ => if too_long line then []
                      else dropCR line :: scan (lines ++ [EmptyString])
          end).
  rewrite Hl, IH. by destruct lines.
Qed.

Lemma ScanLines_terminated lines :
  Forall (λ line, contains line LF = false) lines →
  Forall (λ line, too_long line = false) lines →
  ScanLines (terminated lines) = dropCR <$> lines.
Proof.
  intros H1 H2. unfold ScanLines.
  by rewrite Split_terminated, scan_terminated.
Qed.

Lemma Split_parts s c : Forall (λ part, contains part c = false) (Split s c).
Proof.
  induction s as [|a s IH]; simpl; [by repeat constructor|].
  destruct (Ascii.eqb a c) eqn:E; [by constructor|].
  destruct (Split s c) as [|part parts]; [by repeat constructor; simpl; rewrite E|].
  inversion_clear IH. constructor; [|done]. simpl. by rewrite E.
Qed.

Lemma too_long_le s t :
  String.length s ≤ String.length t → too_long t = false →
  too_long s = false.
Proof.
  unfold too_long. intros Hle Ht.
  apply N.leb_gt. apply N.leb_gt in Ht. lia.
Qed.

Lemma scan_tokens lines :
  Forall (λ line, contains line LF = false) lines →
  Forall (λ token, contains token LF = false ∧ too_long token = false)
    (scan lines).
Proof.
  induction 1 as [|line lines Hl _ IH]; [constructor|].
  simpl. destruct lines as [|line' lines].
  - case_decide; [constructor|].
    destruct (too_long line) eqn:E; constructor; [|constructor].
    split; [by apply contains_dropCR|].
    eapply too_long_le; [apply length_dropCR|done].
  - destruct (too_long line) eqn:E; constructor; [|done].
    split; [by apply contains_dropCR|].
    eapply too_long_le; [apply length_dropCR|done].
Qed.

(** What the scanner delivers has no newline and fits the buffer. *)
Lemma ScanLines_tokens data :
  Forall (λ token, contains token LF = false ∧ too_long token = false)
    (ScanLines data).
Proof. apply scan_tokens, Split_parts. Qed.
End scanner.

(** ** Sorting and enumeration *)

Section keys.
Implicit Types (env res : gmap string string) (keys : list string).

Lemma sort_Strings_Permutation keys : sort_Strings keys ≡ₚ keys.
Proof. apply merge_sort_Permutation. Qed.

Lemma sort_Strings_sorted keys : StronglySorted String.le (sort_Strings keys).
Proof. apply StronglySorted_merge_sort; apply _. Qed.

(** The sorted order does not depend on the order of enumeration. *)
Lemma sort_Strings_unique keys1 keys2 :
  keys1 ≡ₚ keys2 → sort_Strings keys1 = sort_Strings keys2.
Proof.
  intros H. apply (StronglySorted_unique String.le);
    [apply sort_Strings_sorted..|].
  by rewrite !sort_Strings_Permutation.
Qed.

Lemma elem_of_range_keys env k : k ∈ range_keys env ↔ is_Some (env !! k).
Proof.
  unfold range_keys. rewrite list_elem_of_fmap. split.
  - intros ([k' v] & -> & H). apply elem_of_map_to_list in H. by exists v.
  - intros [v H]. exists (k, v). split; [done|].
    by apply elem_of_map_to_list.
Qed.


Lemma elem_of_sorted env keys k :
  keys ≡ₚ range_keys env →
  k ∈ sort_Strings keys ↔ is_Some (env !! k).
Proof.
  intros H. by rewrite sort_Strings_Permutation, H, elem_of_range_keys.
Qed.


(** Inserting the value of every key of [env] rebuilds [env]. *)
Lemma lookup_foldl_insert (f : string → string) res keys j :
  foldl (λ m k, <[k := f k]> m) res keys !! j =
    if decide (j ∈ keys) then Some (f j) else res !! j.
Proof.
  revert res. induction keys as [|k keys IH]; intros res; cbn [foldl].
  - case_decide as Hin; [|done]. by apply elem_of_nil in Hin.
  - rewrite IH. rewrite (decide_ext (j ∈ k :: keys) (j = k ∨ j ∈ keys))
      by apply elem_of_cons.
    destruct (decide (j ∈ keys)) as [Hin|Hin].
    + by rewrite decide_True by tauto.
    + destruct (decide (j = k)) as [->|Hne].
      * rewrite lookup_insert_eq. by rewrite decide_True by tauto.
      * rewrite lookup_insert_ne by done. by rewrite decide_False by tauto.
Qed.

Lemma foldl_insert_all env keys :
  (∀ k, k ∈ keys ↔ is_Some (env !! k)) →
  foldl (λ m k, <[k := env !!! k]> m) ∅ keys = env.
Proof.
  intros H. apply map_eq. intros j. rewrite lookup_foldl_insert.
  destruct (decide (j ∈ keys)) as [Hin|Hin].
  - apply H in Hin as [v Hv]. by rewrite (lookup_total_correct _ _ _ Hv).
  - rewrite lookup_empty. symmetry. apply eq_None_not_Some. by rewrite <-H.
Qed.
End keys.

(** ** The differ *)

Section differ.
Implicit Types (sMap tMap : gmap string string).

Lemma Flat_appendNewEnv_range_union pairs tMap :
  Flat.appendNewEnv_range pairs tMap = tMap ∪ list_to_map pairs.
Proof.
  unfold Flat.appendNewEnv_range. revert tMap.
  induction pairs as [|[k v] pairs IH]; intros tMap.
  - simpl. by rewrite (right_id_L ∅ (∪)).
  - simpl foldl. rewrite IH. simpl. apply map_eq. intros j.
    destruct (tMap !! k) as [w|] eqn:E.
    + rewrite !lookup_union. destruct (decide (j = k)) as [->|Hne].
      * rewrite E, lookup_insert_eq. by destruct (list_to_map pairs !! k).
      * by rewrite lookup_insert_ne.
    + rewrite !lookup_union. destruct (decide (j = k)) as [->|Hne].
      * rewrite E, !lookup_insert_eq.
        by destruct (list_to_map pairs !! k).
      * by rewrite !lookup_insert_ne.
Qed.

Lemma Grouped_appendNewEnv_range_fst pairs tMap :
  (Grouped.appendNewEnv_range pairs tMap).1 =
    Flat.appendNewEnv_range pairs tMap.
Proof.
  unfold Grouped.appendNewEnv_range, Flat.appendNewEnv_range.
  generalize (∅ : gmap string string) as added. revert tMap.
  induction pairs as [|[k v] pairs IH]; intros tMap added; [done|].
  simpl. destruct (tMap !! k); apply IH.
Qed.

(** Whatever the order of enumeration of [sMap], the merged map is the
    left-biased union. *)
Lemma Flat_appendNewEnv_range_perm pairs sMap tMap :
  pairs ≡ₚ map_to_list sMap →
  Flat.appendNewEnv_range pairs tMap = tMap ∪ sMap.
Proof.
  intros H. rewrite Flat_appendNewEnv_range_union. f_equal.
  symmetry. by apply list_to_map_flip.
Qed.

Lemma union_restricted sMap tMap :
  tMap ∪ filter (λ kv, tMap !! kv.1 = None) sMap = tMap ∪ sMap.
Proof.
  apply map_eq. intros k. rewrite !lookup_union.
  destruct (tMap !! k) as [v|] eqn:E; [by rewrite !union_Some_l|].
  rewrite !(left_id_L None (∪)).
  destruct (sMap !! k) as [w|] eqn:Es.
  - by apply map_lookup_filter_Some.
  - apply map_lookup_filter_None. left. done.
Qed.
End differ.

(** ** The writers *)

Section writers.
Implicit Types (env : gmap string string) (fs : gmap string string).
Implicit Types (keys : list string) (flt : faults).

Lemma flat_text_cons env k keys :
  flat_text env (k :: keys) = valueFmt k (env !!! k) +:+ flat_text env keys.
Proof. reflexivity. Qed.

Lemma WriteString_ok flt n file s message fs old :
  fs !! file = Some old → write_fails flt n = false →
  wrapped (WriteString flt n file s) message fs =
    (inr (), <[file := old +:+ s]> fs).
Proof. intros Hf Hw. unfold wrapped, WriteString. by rewrite Hw, Hf. Qed.

Lemma WriteString_fails flt n file s message fs :
  write_fails flt n = true →
  wrapped (WriteString flt n file s) message fs =
    (inl (Wrap (OsError "write") message), fs).
Proof. intros Hw. unfold wrapped, WriteString. by rewrite Hw. Qed.

(** The flat loop when no write fails. *)
Lemma Flat_writeEnv_loop_ok flt i file env keys fs old :
  fs !! file = Some old →
  (∀ n, write_fails flt n = false) →
  Flat.writeEnv_loop flt i file env keys fs =
    (inr (), <[file := old +:+ flat_text env keys]> fs).
Proof.
  intros Hf Hw. revert i fs old Hf.
  induction keys as [|k keys IH]; intros i fs old Hf.
  - simpl. unfold flat_text. simpl. rewrite append_nil_r.
    by rewrite insert_id.
  - cbn [Flat.writeEnv_loop]. unfold mbind, io_bind.
    erewrite WriteString_ok by done.
    erewrite IH by apply lookup_insert_eq.
    by rewrite insert_insert_eq, flat_text_cons, append_assoc.
Qed.

(** The flat loop returns nil only after writing every line. *)
Lemma Flat_writeEnv_loop_inr flt i file env keys fs old u fs' :
  fs !! file = Some old →
  Flat.writeEnv_loop flt i file env keys fs = (inr u, fs') →
  fs' = <[file := old +:+ flat_text env keys]> fs.
Proof.
  revert i fs old. induction keys as [|k keys IH]; intros i fs old Hf.
  - simpl. intros [= <-]. unfold flat_text. simpl. rewrite append_nil_r.
    by rewrite insert_id.
  - cbn [Flat.writeEnv_loop]. unfold mbind, io_bind.
    destruct (write_fails flt i) eqn:Hw.
    + by rewrite WriteString_fails.
    + erewrite WriteString_ok by done. intros H.
      eapply IH in H; [|apply lookup_insert_eq].
      by rewrite H, insert_insert_eq, flat_text_cons, append_assoc.
Qed.

Lemma Grouped_prefix k : Grouped.prefix k = before "_" k.
Proof. unfold Grouped.prefix. by rewrite Split_head. Qed.

(** The grouped loop appends the described text to its buffer. *)
Lemma Grouped_writeEnv_loop env i group buff keys :
  Grouped.writeEnv_loop env i group buff keys =
    buff +:+ grouped_text env (bool_decide (i = 0)) group keys.
Proof.
  revert i group buff. induction keys as [|k keys IH]; intros i group buff.
  - simpl. by rewrite append_nil_r.
  - cbn [Grouped.writeEnv_loop grouped_text]. rewrite Grouped_prefix.
    destruct (decide (before "_" k ≠ group)) as [Hne|Heq].
    + rewrite IH, (decide_False (P := before "_" k = group)) by done.
      unfold Grouped.firstGroupFmt, Grouped.groupFmt.
      replace (bool_decide (S i = 0)) with false
        by (symmetry; by apply bool_decide_eq_false).
      destruct (decide (i = 0)) as [->|Hi].
      * simpl bool_decide. cbv iota. by rewrite !append_assoc.
      * rewrite (bool_decide_eq_false_2 (i = 0)) by done.
        by rewrite !append_assoc.
    + apply dec_stable in Heq.
      rewrite IH, (decide_True (P := before "_" k = group)) by done.
      replace (bool_decide (S i = 0)) with false
        by (symmetry; by apply bool_decide_eq_false).
      by rewrite Heq, append_nil_l, !append_assoc.
Qed.

Lemma Grouped_writeEnv_buffer_text keys env :
  Grouped.writeEnv_buffer keys env =
    grouped_text env true EmptyString (sort_Strings keys).
Proof. unfold Grouped.writeEnv_buffer. by rewrite Grouped_writeEnv_loop. Qed.

Lemma grouped_text_lines env first prev keys :
  grouped_text env first prev keys =
    terminated (grouped_lines env first prev keys).
Proof.
  revert first prev. induction keys as [|k keys IH]; intros first prev;
    [done|].
  cbn [grouped_text grouped_lines]. rewrite IH. unfold valueFmt.
  case_decide.
  - simpl app. by rewrite terminated_cons, append_nil_l, !append_assoc.
  - destruct first; simpl app; rewrite !terminated_cons; unfold newline;
      by rewrite ?append_nil_l, !append_assoc.
Qed.

Lemma flat_text_lines env keys :
  flat_text env keys =
    terminated ((λ k, k +:+ "=" +:+ env !!! k) <$> keys).
Proof.
  induction keys as [|k keys IH]; [done|].
  rewrite flat_text_cons, fmap_cons, terminated_cons, IH.
  unfold valueFmt, newline. by rewrite !append_assoc.
Qed.
End writers.

(** ** Parsing what was written *)

Section roundtrip.
Implicit Types (env res : gmap string string) (keys : list string).

Lemma last_byte_line k v :
  last_byte v ≠ Some CR → last_byte (k +:+ "=" +:+ v) ≠ Some CR.
Proof.
  intros H. change ("=" +:+ v) with (String "=" v).
  rewrite last_byte_append. simpl. by destruct v.
Qed.

Lemma line_no_newline k v :
  contains k LF = false → contains v LF = false →
  contains (k +:+ "=" +:+ v) LF = false.
Proof.
  intros Hk Hv. rewrite !contains_append, Hk, Hv. done.
Qed.

Lemma mapEnv_loop_skip res token tokens :
  classify token = Skipped →
  mapEnv_loop res (token :: tokens) = mapEnv_loop res tokens.
Proof. intros H. by rewrite mapEnv_loop_cons, H. Qed.

Lemma classify_header g : classify (dropCR ("# " +:+ g)) = Skipped.
Proof.
  change ("# " +:+ g) with (String "#" (String " " g)).
  change (dropCR (String "#" (String " " g)))
    with (String "#" (dropCR (String " " g))).
  done.
Qed.

(** Parsing the lines [k=v] of the keys inserts them one by one. *)
Lemma mapEnv_loop_entries res env keys :
  Forall (λ k, contains k "=" = false ∧ starts_with k "#" = false) keys →
  mapEnv_loop res ((λ k, k +:+ "=" +:+ env !!! k) <$> keys) =
    (foldl (λ m k, <[k := env !!! k]> m) res keys, None).
Proof.
  intros H. revert res. induction H as [|k keys [Hk Hh] _ IH]; intros res;
    [done|].
  rewrite fmap_cons, mapEnv_loop_cons, classify_entry by done.
  by rewrite IH.
Qed.

Lemma mapEnv_loop_grouped res env first prev keys :
  Forall (λ k, contains k "=" = false ∧ starts_with k "#" = false ∧
               last_byte (env !!! k) ≠ Some CR) keys →
  mapEnv_loop res (dropCR <$> grouped_lines env first prev keys) =
    (foldl (λ m k, <[k := env !!! k]> m) res keys, None).
Proof.
  intros H. revert res first prev.
  induction H as [|k keys (Hk & Hh & Hv) _ IH]; intros res first prev;
    [done|].
  cbn [grouped_lines].
  assert (mapEnv_loop res
            (dropCR <$> (k +:+ "=" +:+ env !!! k)
               :: grouped_lines env false (before "_" k) keys) =
          (foldl (λ m k, <[k := env !!! k]> m) res (k :: keys), None))
    as Hline.
  { rewrite fmap_cons, dropCR_id by by apply last_byte_line.
    rewrite mapEnv_loop_cons, classify_entry by done. by rewrite IH. }
  case_decide; [done|].
  destruct first; simpl app; rewrite !fmap_cons.
  - by rewrite mapEnv_loop_skip by apply classify_header.
  - rewrite mapEnv_loop_skip by done.
    by rewrite mapEnv_loop_skip by apply classify_header.
Qed.

Lemma grouped_lines_ok env first prev keys :
  Forall (λ k, contains k LF = false ∧ contains (env !!! k) LF = false ∧
               too_long (k +:+ "=" +:+ env !!! k) = false ∧
               too_long ("# " +:+ before "_" k) = false) keys →
  Forall (λ line, contains line LF = false ∧ too_long line = false)
    (grouped_lines env first prev keys).
Proof.
  intros H. revert first prev.
  induction H as [|k keys (Hk & Hv & Hl & Hg) _ IH]; intros first prev;
    [constructor|].
  cbn [grouped_lines].
  assert (contains ("# " +:+ before "_" k) LF = false) as Hh.
  { rewrite contains_append. simpl. by apply contains_before. }
  apply Forall_app. split.
  - case_decide; [constructor|]. destruct first; repeat constructor; done.
  - constructor; [|apply IH]. split; [|done]. by apply line_no_newline.
Qed.

Section env.
Context (env : gmap string string) (sorted : list string).
Context (Hsorted : ∀ k, k ∈ sorted ↔ is_Some (env !! k)).
Context (Hwf : map_Forall well_formed env).
Context (Hscan : map_Forall scannable env).

Lemma sorted_entry k : k ∈ sorted → env !! k = Some (env !!! k).
Proof.
  intros Hin. apply Hsorted in Hin as [v Hv].
  by rewrite (lookup_total_correct _ _ _ Hv).
Qed.

Lemma flat_round_trip : mapEnv (flat_text env sorted) = (env, None).
Proof.
  unfold mapEnv. rewrite flat_text_lines, ScanLines_terminated.
  - rewrite <-list_fmap_compose.
    erewrite (list_fmap_ext _ (λ k, k +:+ "=" +:+ env !!! k)).
    + rewrite mapEnv_loop_entries, foldl_insert_all; [done..|].
      apply Forall_forall. intros k Hin%sorted_entry.
      apply Hwf in Hin as (? & ? & ? & ?). done.
    + intros i k Hin%list_elem_of_lookup_2%sorted_entry. simpl.
      apply dropCR_id, last_byte_line. by apply Hscan in Hin as [??].
  - apply Forall_fmap, Forall_forall. intros k Hin%sorted_entry. simpl.
    apply Hwf in Hin as (? & ? & ? & ?). by apply line_no_newline.
  - apply Forall_fmap, Forall_forall. intros k Hin%sorted_entry. simpl.
    by apply Hscan in Hin as [??].
Qed.

Lemma grouped_round_trip :
  map_Forall (λ k _, scannable_header k) env →
  mapEnv (grouped_text env true EmptyString sorted) = (env, None).
Proof.
  intros Hhead. unfold mapEnv.
  rewrite grouped_text_lines, ScanLines_terminated.
  - rewrite mapEnv_loop_grouped, foldl_insert_all; [done..|].
    apply Forall_forall. intros k Hin%sorted_entry.
    pose proof (Hwf _ _ Hin) as (? & ? & ? & ?).
    pose proof (Hscan _ _ Hin) as [??]. done.
  - eapply Forall_impl; [apply grouped_lines_ok|by intros ? [??]].
    apply Forall_forall. intros k Hin%sorted_entry.
    pose proof (Hwf _ _ Hin) as (? & ? & ? & ?).
    pose proof (Hscan _ _ Hin) as [??].
    pose proof (Hhead _ _ Hin). done.
  - eapply Forall_impl; [apply grouped_lines_ok|by intros ? [??]].
    apply Forall_forall. intros k Hin%sorted_entry.
    pose proof (Hwf _ _ Hin) as (? & ? & ? & ?).
    pose proof (Hscan _ _ Hin) as [??].
    pose proof (Hhead _ _ Hin). done.
Qed.
End env.
End roundtrip.

(** ** What a parsed mapping holds *)

Section parsed.
Implicit Types (res : gmap string string) (lines : list string).

Lemma foldl_add_line_inv res lines k v :
  foldl add_line res lines !! k = Some v →
  res !! k = Some v ∨ ∃ line, line ∈ lines ∧ classify line = Entry k v.
Proof.
  revert res. induction lines as [|line lines IH]; intros res; [by left|].
  simpl. intros H. apply IH in H as [H|(l & Hin & Hl)].
  - unfold add_line in H. destruct (classify line) as [|k' v'|] eqn:E;
      [by left| |by left].
    destruct (decide (k = k')) as [->|Hne].
    + rewrite lookup_insert_eq in H. injection H as ->.
      right. exists line. split; [left|done].
    + rewrite lookup_insert_ne in H by done. by left.
  - right. exists l. split; [by right|done].
Qed.

(** The mapping returned by the loop is built from a prefix of the
    tokens. *)
Lemma mapEnv_loop_prefix res lines :
  ∃ pre post, lines = pre ++ post ∧
    (mapEnv_loop res lines).1 = foldl add_line res pre.
Proof.
  destruct (first_invalid lines) as [H|(pre & bad & post & -> & Hpre & Hbad)].
  - exists lines, []. rewrite (right_id_L [] (++)).
    by rewrite mapEnv_loop_valid.
  - exists pre, (bad :: post). by rewrite mapEnv_loop_invalid.
Qed.

Lemma mapEnv_entry data k v :
  (mapEnv data).1 !! k = Some v →
  ∃ token, token ∈ ScanLines data ∧ classify token = Entry k v.
Proof.
  unfold mapEnv.
  destruct (mapEnv_loop_prefix ∅ (ScanLines data)) as (pre & post & E & ->).
  intros [H|(l & Hin & Hl)]%foldl_add_line_inv; [done|].
  exists l. split; [|done]. rewrite E. apply elem_of_app. by left.
Qed.

Lemma mapEnv_well_formed data : map_Forall well_formed (mapEnv data).1.
Proof.
  intros k v (token & Hin & Hc)%mapEnv_entry.
  pose proof (ScanLines_tokens data) as Htok.
  rewrite Forall_forall in Htok. apply Htok in Hin as [Hlf _].
  apply classify_Entry_inv in Hc as (-> & Hk & Hh).
  rewrite !contains_append in Hlf.
  apply orb_false_elim in Hlf as [Hlf1 Hlf2].
  apply orb_false_elim in Hlf2 as [_ Hlf2]. done.
Qed.

Lemma mapEnv_fits data :
  map_Forall (λ k v, too_long (k +:+ "=" +:+ v) = false) (mapEnv data).1.
Proof.
  intros k v (token & Hin & Hc)%mapEnv_entry.
  pose proof (ScanLines_tokens data) as Htok.
  rewrite Forall_forall in Htok. apply Htok in Hin as [_ Hfit].
  by apply classify_Entry_inv in Hc as (-> & Hk & Hh).
Qed.

(** A delivered invalid line makes the parser fail with that line or an
    earlier invalid one. *)
Lemma mapEnv_invalid data :
  (∃ token, token ∈ ScanLines data ∧ classify token = Invalid) →
  ∃ bad, bad ∈ ScanLines data ∧ classify bad = Invalid ∧
    (mapEnv data).2 = Some (Errorf_split bad).
Proof.
  intros (token & Hin & Hc). unfold mapEnv.
  destruct (first_invalid (ScanLines data))
    as [H|(pre & bad & post & E & Hpre & Hbad)].
  - rewrite Forall_forall in H. by apply H in Hin.
  - exists bad. rewrite E. split; [|split; [done|]].
    + apply elem_of_app. right. left.
    + by rewrite mapEnv_loop_invalid.
Qed.

Lemma mapEnv_error data e :
  (mapEnv data).2 = Some e →
  ∃ bad, bad ∈ ScanLines data ∧ classify bad = Invalid ∧
    e = Errorf_split bad.
Proof.
  unfold mapEnv.
  destruct (first_invalid (ScanLines data))
    as [H|(pre & bad & post & E & Hpre & Hbad)].
  - by rewrite mapEnv_loop_valid.
  - rewrite E, mapEnv_loop_invalid by done. intros [= <-].
    exists bad. split; [|done]. apply elem_of_app. right. left.
Qed.
End parsed.

(** ** The orchestrator *)

Section sync.
Implicit Types (fs : gmap string string) (flt : faults).
Implicit Types (source target : string).

(** The flat [Sync_body], stage by stage. *)
Lemma Flat_Sync_body_run flt source target backupFile fs :
  Flat.Sync_body flt source target backupFile fs =
    match fs !! source with
    | None =>
        (inl (Wrap (OsError "open") "couldn't open source file"), fs)
    | Some sData =>
        match fs !! target with
        | None =>
            (inl (Wrap (OsError "open") "couldn't open target file"), fs)
        | Some tData =>
            match mapEnv sData with
            | (_, Some e) => (inl e, fs)
            | (sMap, None) =>
                match mapEnv tData with
                | (_, Some e) => (inl e, fs)
                | (tMap, None) =>
                    if backup_copy_fails flt then (inl (OsError "cp"), fs)
                    else
                      wrapped
                        (Flat.writeEnv flt target
                           (Flat.appendNewEnv sMap tMap))
                        "couldn't write target file"
                        (<[target := EmptyString]>
                           (<[backupFile := tData]> fs))
                end
            end
        end
    end.
Proof.
  unfold Flat.Sync_body, mbind, io_bind, wrapped at 1 2, Open.
  destruct (fs !! source) as [sData|] eqn:Hs; [|done].
  destruct (fs !! target) as [tData|] eqn:Ht; [|done].
  unfold mapEnv_file, mbind, io_bind, ReadAll, mret, io_ret, fail.
  rewrite Hs. simpl.
  destruct (mapEnv sData) as [sMap [e|]]; [done|].
  rewrite Ht. simpl.
  destruct (mapEnv tData) as [tMap [e|]]; [done|].
  unfold cp_backup. destruct (backup_copy_fails flt); [done|].
  unfold cp. by rewrite Ht.
Qed.

(** The grouped [Sync_body], stage by stage. *)
Lemma Grouped_Sync_body_run flt source target backupFile fs :
  Grouped.Sync_body flt source target backupFile fs =
    match fs !! source with
    | None =>
        (inl (Wrap (OsError "open") "couldn't open source file"), fs)
    | Some sData =>
        match fs !! target with
        | None =>
            (inl (Wrap (OsError "open") "couldn't open target file"), fs)
        | Some tData =>
            match mapEnv sData with
            | (_, Some e) => (inl e, fs)
            | (sMap, None) =>
                match mapEnv tData with
                | (_, Some e) => (inl e, fs)
                | (tMap, None) =>
                    wrapped
                      (Grouped.writeEnv flt target
                         (Grouped.appendNewEnv sMap tMap).1)
                      "couldn't write target file"
                      (<[target := EmptyString]>
                         (if backup_copy_fails flt then fs
                          else <[backupFile := tData]> fs))
                end
            end
        end
    end.
Proof.
  unfold Grouped.Sync_body, mbind, io_bind, wrapped at 1 2, Open.
  destruct (fs !! source) as [sData|] eqn:Hs; [|done].
  destruct (fs !! target) as [tData|] eqn:Ht; [|done].
  unfold mapEnv_file, mbind, io_bind, ReadAll, mret, io_ret, fail.
  rewrite Hs. simpl.
  destruct (mapEnv sData) as [sMap [e|]]; [done|].
  rewrite Ht. simpl.
  destruct (mapEnv tData) as [tMap [e|]]; [done|].
  unfold dropped, cp_backup.
  destruct (Grouped.appendNewEnv sMap tMap) as [newEnv additionalEnv].
  destruct (backup_copy_fails flt); [done|].
  unfold cp. by rewrite Ht.
Qed.
End sync.

Section outcomes.
Implicit Types (fs env : gmap string string) (flt : faults).
Implicit Types (source target file message : string).

Lemma appendNewEnv_union sMap tMap :
  Flat.appendNewEnv sMap tMap = tMap ∪ sMap ∧
  (Grouped.appendNewEnv sMap tMap).1 = tMap ∪ sMap.
Proof.
  unfold Flat.appendNewEnv, Grouped.appendNewEnv.
  rewrite Grouped_appendNewEnv_range_fst.
  by rewrite (Flat_appendNewEnv_range_perm _ sMap).
Qed.

Lemma synced_intro target (text tData : string) (b : bool) fs :
  synced target text fs
    (delete (target +:+ ".bak")
       (<[target := text]>
          (if b then fs else <[target +:+ ".bak" := tData]> fs))).
Proof.
  pose proof (bak_neq target) as Hne. split; [|split].
  - rewrite lookup_delete_ne by done. apply lookup_insert_eq.
  - apply lookup_delete_eq.
  - intros path H1 H2. rewrite lookup_delete_ne, lookup_insert_ne by done.
    destruct b; [done|]. by rewrite lookup_insert_ne.
Qed.

(** A failed [Sync] body that left the files alone leaves the target. *)
Lemma cleanup_target target fs :
  cleanup None (target +:+ ".bak") target fs !! target = fs !! target.
Proof.
  unfold cleanup, rm. apply lookup_delete_ne, bak_neq.
Qed.

Lemma Flat_Sync_success flt source target fs fs' :
  Flat.Sync flt source target fs = (None, fs') →
  ∃ sData tData sMap tMap,
    fs !! source = Some sData ∧ fs !! target = Some tData ∧
    mapEnv sData = (sMap, None) ∧ mapEnv tData = (tMap, None) ∧
    backup_copy_fails flt = false ∧
    synced target
      (flat_text (tMap ∪ sMap) (sort_Strings (range_keys (tMap ∪ sMap))))
      fs fs'.
Proof.
  unfold Flat.Sync. rewrite Flat_Sync_body_run.
  destruct (fs !! source) as [sData|] eqn:Hs; [|done].
  destruct (fs !! target) as [tData|] eqn:Ht; [|done].
  destruct (mapEnv sData) as [sMap [e|]] eqn:Hsm; [done|].
  destruct (mapEnv tData) as [tMap [e|]] eqn:Htm; [done|].
  destruct (backup_copy_fails flt) eqn:Hcp; [done|].
  rewrite (proj1 (appendNewEnv_union sMap tMap)).
  unfold wrapped, Flat.writeEnv, Flat.writeEnv_from.
  destruct (Flat.writeEnv_loop _ _ _ _ _ _) as [[e|[]] fs''] eqn:Hw; [done|].
  intros [= <-]. eapply Flat_writeEnv_loop_inr in Hw;
    [|apply lookup_insert_eq].
  rewrite append_nil_l, insert_insert_eq in Hw. subst fs''.
  exists sData, tData, sMap, tMap. repeat (split; [done|]).
  apply (synced_intro target _ tData false).
Qed.

Lemma Grouped_writeEnv_run flt file env message fs old :
  fs !! file = Some old →
  wrapped (Grouped.writeEnv flt file env) message fs =
    let buff := Grouped.writeEnv_buffer (range_keys env) env in
    if write_fails flt 0
    then (inl (Wrap (Wrap (OsError "write")
                       ("error when writing file " +:+ buff)) message), fs)
    else (inr (), <[file := old +:+ buff]> fs).
Proof.
  intros Hf.
  unfold Grouped.writeEnv, Grouped.writeEnv_from, WriteString, wrapped.
  cbv beta zeta. rewrite Hf. by destruct (write_fails flt 0).
Qed.

Lemma Grouped_Sync_success flt source target fs fs' :
  Grouped.Sync flt source target fs = (None, fs') →
  ∃ sData tData sMap tMap,
    fs !! source = Some sData ∧ fs !! target = Some tData ∧
    mapEnv sData = (sMap, None) ∧ mapEnv tData = (tMap, None) ∧
    write_fails flt 0 = false ∧
    synced target
      (grouped_text (tMap ∪ sMap) true EmptyString
         (sort_Strings (range_keys (tMap ∪ sMap))))
      fs fs'.
Proof.
  unfold Grouped.Sync. rewrite Grouped_Sync_body_run.
  destruct (fs !! source) as [sData|] eqn:Hs; [|done].
  destruct (fs !! target) as [tData|] eqn:Ht; [|done].
  destruct (mapEnv sData) as [sMap [e|]] eqn:Hsm; [done|].
  destruct (mapEnv tData) as [tMap [e|]] eqn:Htm; [done|].
  rewrite (proj2 (appendNewEnv_union sMap tMap)).
  erewrite Grouped_writeEnv_run by apply lookup_insert_eq. cbv zeta.
  destruct (write_fails flt 0) eqn:Hw; [done|].
  rewrite append_nil_l, insert_insert_eq, Grouped_writeEnv_buffer_text.
  intros [= <-].
  exists sData, tData, sMap, tMap. repeat (split; [done|]).
  apply synced_intro.
Qed.

(** The converse for the grouped variant: with parsable files and a write
    that succeeds, [Sync] returns nil. *)
Lemma Grouped_Sync_run flt source target fs sData tData sMap tMap :
  fs !! source = Some sData → fs !! target = Some tData →
  mapEnv sData = (sMap, None) → mapEnv tData = (tMap, None) →
  write_fails flt 0 = false →
  ∃ fs', Grouped.Sync flt source target fs = (None, fs') ∧
    synced target
      (grouped_text (tMap ∪ sMap) true EmptyString
         (sort_Strings (range_keys (tMap ∪ sMap))))
      fs fs'.
Proof.
  intros Hs Ht Hsm Htm Hw. unfold Grouped.Sync.
  rewrite Grouped_Sync_body_run, Hs, Ht, Hsm, Htm.
  rewrite (proj2 (appendNewEnv_union sMap tMap)).
  erewrite Grouped_writeEnv_run by apply lookup_insert_eq. cbv zeta.
  rewrite Hw, append_nil_l, insert_insert_eq, Grouped_writeEnv_buffer_text.
  eexists. split; [done|]. apply synced_intro.
Qed.

Lemma Flat_Sync_run flt source target fs sData tData sMap tMap :
  fs !! source = Some sData → fs !! target = Some tData →
  mapEnv sData = (sMap, None) → mapEnv tData = (tMap, None) →
  backup_copy_fails flt = false → (∀ n, write_fails flt n = false) →
  ∃ fs', Flat.Sync flt source target fs = (None, fs') ∧
    synced target
      (flat_text (tMap ∪ sMap) (sort_Strings (range_keys (tMap ∪ sMap))))
      fs fs'.
Proof.
  intros Hs Ht Hsm Htm Hcp Hw. unfold Flat.Sync.
  rewrite Flat_Sync_body_run, Hs, Ht, Hsm, Htm, Hcp.
  rewrite (proj1 (appendNewEnv_union sMap tMap)).
  unfold wrapped, Flat.writeEnv, Flat.writeEnv_from.
  erewrite Flat_writeEnv_loop_ok; [|apply lookup_insert_eq|done].
  rewrite append_nil_l, insert_insert_eq.
  eexists. split; [done|]. apply (synced_intro target _ tData false).
Qed.
End outcomes.

(** * The properties of the specification *)

(** ** The parser *)



(** C9, as amended.  For every input file from which the scanner delivers
    only valid lines, among them a line [k=v] after which no line has the
    key [k], [mapEnv] returns no error and its mapping holds [v] for [k],
    whatever values earlier lines gave to [k].  The scanner delivers the
    lines of a file up to the first line of 65536 bytes or more. *)
Theorem mapEnv_last_write_wins data pre line post k v :
  ScanLines data = pre ++ line :: post →
  Forall (λ line, classify line ≠ Invalid) (pre ++ post) →
  classify line = Entry k v →
  Forall (λ line, ∀ v', classify line ≠ Entry k v') post →
  (mapEnv data).1 !! k = Some v ∧ (mapEnv data).2 = None.
Proof.
  intros Hscan [Hpre Hpost]%Forall_app Hline Hlast.
  unfold mapEnv. rewrite Hscan, mapEnv_loop_valid.
  - split; [|done]. by apply foldl_add_line_last.
  - apply Forall_app. split; [done|]. constructor; [congruence|done].
Qed.

Lemma mapEnv_last_write_wins_witness :
  (mapEnv ("A=1" +:+ newline +:+ "B=2" +:+ newline +:+ "A=3" +:+ newline
           +:+ "C=4" +:+ newline)).1 !! "A" = Some "3" ∧
  (mapEnv ("A=1" +:+ newline +:+ "B=2" +:+ newline +:+ "A=3" +:+ newline
           +:+ "C=4" +:+ newline)).2 = None.
Proof.
  apply (mapEnv_last_write_wins _ ["A=1"; "B=2"] "A=3" ["C=4"]).
  - reflexivity.
  - repeat constructor; by vm_compute.
  - reflexivity.
  - repeat constructor. intros v'. by vm_compute.
Defined.

(** C9 as stated fails: every line of the file is valid and [A] is set by
    the first and by the last; the line between them has more than 70000
    bytes, the scanner stops there without an error, and [A] keeps its
    first value. *)
Lemma mapEnv_stops_at_long_line :
  Split shadowed_file LF = ["A=1"; long_entry; "A=2"; EmptyString] ∧
  classify "A=1" = Entry "A" "1" ∧
  classify long_entry = Entry "B" (repeat_byte "x" (N.to_nat 70000)) ∧
  classify "A=2" = Entry "A" "2" ∧
  mapEnv shadowed_file = (<["A" := "1"]> ∅, None).
Proof.
  split.
  { apply (Split_terminated ["A=1"; long_entry; "A=2"]).
    repeat constructor; by vm_compute. }
  split; [reflexivity|]. split; [by apply classify_entry|].
  split; [reflexivity|]. by vm_compute.
Qed.

(** ** The writers *)


Lemma example_env_enumeration :
  ["ZEBRA"; "APPLE"; "apple_b"] ≡ₚ range_keys example_env.
Proof.
  replace (range_keys example_env) with ["apple_b"; "APPLE"; "ZEBRA"]
    by by vm_compute.
  etrans; [apply perm_swap|].
  etrans; [apply perm_skip, perm_swap|]. apply perm_swap.
Defined.




(** A first key with the empty label starts without a header, and the
    header of the next group has its blank line. *)
Lemma first_empty_label_no_header :
  Grouped.writeEnv_buffer ["a_b"; "_X"]
    (<["_X" := "1"]> (<["a_b" := "2"]> ∅)) =
    "_X=1" +:+ newline +:+ newline +:+ "# a" +:+ newline
    +:+ "a_b=2" +:+ newline.
Proof. by vm_compute. Qed.

(** ** The differ *)

(** C2.  For every source mapping [sMap] and target mapping [tMap], and
    every order in which [sMap] is enumerated, [appendNewEnv] leaves in the
    target's mapping the original target mapping united with the source
    mapping restricted to the keys absent from the target; a key of the
    target keeps its value whatever the source holds for it.  A [Sync] that
    returns nil has parsed both files and has written that mapping to the
    target, in either variant. *)
Theorem Sync_merges_without_overwrite :
  (∀ sMap tMap pairs,
     pairs ≡ₚ map_to_list sMap →
     Flat.appendNewEnv_range pairs tMap = merged sMap tMap ∧
     (Grouped.appendNewEnv_range pairs tMap).1 = merged sMap tMap) ∧
  (∀ sMap tMap k v,
     tMap !! k = Some v → merged sMap tMap !! k = Some v) ∧
  (∀ flt source target fs fs',
     Flat.Sync flt source target fs = (None, fs') →
     ∃ sData tData sMap tMap,
       fs !! source = Some sData ∧ fs !! target = Some tData ∧
       mapEnv sData = (sMap, None) ∧ mapEnv tData = (tMap, None) ∧
       fs' !! target =
         Some (flat_text (merged sMap tMap)
                 (sort_Strings (range_keys (merged sMap tMap))))) ∧
  (∀ flt source target fs fs',
     Grouped.Sync flt source target fs = (None, fs') →
     ∃ sData tData sMap tMap,
       fs !! source = Some sData ∧ fs !! target = Some tData ∧
       mapEnv sData = (sMap, None) ∧ mapEnv tData = (tMap, None) ∧
       fs' !! target =
         Some (grouped_text (merged sMap tMap) true EmptyString
                 (sort_Strings (range_keys (merged sMap tMap))))).
Proof.
  split; [|split; [|split]].
  - intros sMap tMap pairs Hperm. unfold merged. rewrite union_restricted.
    rewrite Grouped_appendNewEnv_range_fst.
    by rewrite (Flat_appendNewEnv_range_perm _ sMap).
  - intros sMap tMap k v Hk. unfold merged. by apply lookup_union_Some_l.
  - intros flt source target fs fs' H.
    apply Flat_Sync_success
      in H as (sData & tData & sMap & tMap & Hs & Ht & Hsm & Htm & _ & Hfs').
    exists sData, tData, sMap, tMap. repeat (split; [done|]).
    unfold merged. rewrite union_restricted. apply Hfs'.
  - intros flt source target fs fs' H.
    apply Grouped_Sync_success
      in H as (sData & tData & sMap & tMap & Hs & Ht & Hsm & Htm & _ & Hfs').
    exists sData, tData, sMap, tMap. repeat (split; [done|]).
    unfold merged. rewrite union_restricted. apply Hfs'.
Qed.

Lemma Sync_merges_without_overwrite_witness :
  ∃ sData tData sMap tMap,
    example_fs !! "source.env" = Some sData ∧
    example_fs !! "target.env" = Some tData ∧
    mapEnv sData = (sMap, None) ∧ mapEnv tData = (tMap, None) ∧
    (Flat.Sync no_faults "source.env" "target.env" example_fs).2
      !! "target.env" =
      Some (flat_text (merged sMap tMap)
              (sort_Strings (range_keys (merged sMap tMap)))).
Proof.
  apply (proj1 (proj2 (proj2 Sync_merges_without_overwrite)) no_faults).
  by vm_compute.
Defined.

(** The scenario of the specification: the source holds [FOO=1] and
    [BAR=2], the target [FOO=0]; afterwards the target holds [BAR=2] and
    [FOO=0], sorted. *)
Lemma Sync_scenario :
  Flat.Sync no_faults "source.env" "target.env" example_fs =
    (None, <["target.env" := "BAR=2" +:+ newline +:+ "FOO=0" +:+ newline]>
             example_fs).
Proof. by vm_compute. Qed.

(** ** Writing and parsing back *)

Lemma merged_parsed_well_formed sData tData :
  map_Forall well_formed ((mapEnv tData).1 ∪ (mapEnv sData).1).
Proof. apply map_Forall_union_2; apply mapEnv_well_formed. Qed.

Lemma merged_parsed_scannable sData tData :
  no_trailing_CR (mapEnv sData).1 → no_trailing_CR (mapEnv tData).1 →
  map_Forall scannable ((mapEnv tData).1 ∪ (mapEnv sData).1).
Proof.
  intros Hs Ht. apply map_Forall_union_2.
  - intros k v H. split; [by eapply Ht|by eapply mapEnv_fits].
  - intros k v H. split; [by eapply Hs|by eapply mapEnv_fits].
Qed.

Lemma union_union_r (m1 m2 : gmap string string) : m1 ∪ m2 ∪ m2 = m1 ∪ m2.
Proof. by rewrite <-(assoc_L (∪)), (idemp_L (∪)). Qed.

(** Two runs of a [Sync] that writes the text [text_of] of the merged
    mapping, when the mapping is parsed back from that text.  [ok] holds of
    the faults under which a run over parsable files returns nil. *)
Section twice.
Context (Sync : faults → string → string → gmap string string →
                option error * gmap string string).
Context (text_of : gmap string string → string) (ok : faults → Prop).
Context (Sync_success : ∀ flt source target fs fs',
  Sync flt source target fs = (None, fs') →
  ∃ sData tData sMap tMap,
    fs !! source = Some sData ∧ fs !! target = Some tData ∧
    mapEnv sData = (sMap, None) ∧ mapEnv tData = (tMap, None) ∧
    synced target (text_of (tMap ∪ sMap)) fs fs').
Context (Sync_run : ∀ flt source target fs sData tData sMap tMap,
  fs !! source = Some sData → fs !! target = Some tData →
  mapEnv sData = (sMap, None) → mapEnv tData = (tMap, None) → ok flt →
  ∃ fs', Sync flt source target fs = (None, fs') ∧
         synced target (text_of (tMap ∪ sMap)) fs fs').

Lemma Sync_twice flt1 flt2 source target fs fs1 sData tData :
  fs !! source = Some sData → fs !! target = Some tData →
  mapEnv (text_of ((mapEnv tData).1 ∪ (mapEnv sData).1)) =
    ((mapEnv tData).1 ∪ (mapEnv sData).1, None) →
  source ≠ target +:+ ".bak" → ok flt2 →
  Sync flt1 source target fs = (None, fs1) →
  fs1 !! target = Some (text_of ((mapEnv tData).1 ∪ (mapEnv sData).1)) ∧
  ∃ fs2, Sync flt2 source target fs1 = (None, fs2) ∧
         fs2 !! target = fs1 !! target.
Proof.
  intros Hs Ht Hback Hbak Hok H1.
  apply Sync_success in H1
    as (sData' & tData' & sMap & tMap & Hs' & Ht' & Hsm & Htm & Hfs1).
  rewrite Hs in Hs'. rewrite Ht in Ht'. simplify_eq.
  rewrite Hsm, Htm in Hback. simpl in Hback.
  rewrite Hsm, Htm. simpl.
  destruct Hfs1 as (Htarget & _ & Hother). split; [done|].
  destruct (decide (source = target)) as [->|Hne].
  - destruct (Sync_run flt2 target target fs1 _ _ _ _
                Htarget Htarget Hback Hback Hok) as (fs2 & H2 & Htarget2 & _).
    exists fs2. split; [done|].
    by rewrite Htarget2, Htarget, (idemp_L (∪)).
  - assert (fs1 !! source = Some sData') as Hs1 by by rewrite Hother.
    destruct (Sync_run flt2 source target fs1 _ _ _ _
                Hs1 Htarget Hsm Hback Hok) as (fs2 & H2 & Htarget2 & _).
    exists fs2. split; [done|].
    by rewrite Htarget2, Htarget, union_union_r.
Qed.
End twice.

(** C10, as amended.  For every mapping whose keys hold no [=] and no
    newline and do not start with [#], whose values hold no newline and do
    not end with a carriage return, and whose lines [key=value] are shorter
    than the scanner's buffer, [mapEnv] applied to the text written by
    [writeEnv] returns the mapping and no error: in the flat variant, and
    in the grouped variant when the group headers are shorter than the
    buffer too. *)
Theorem writeEnv_mapEnv_round_trip (env : gmap string string)
    (keys : list string) :
  keys ≡ₚ range_keys env →
  map_Forall well_formed env →
  map_Forall scannable env →
  (∀ flt file fs,
     (∀ n, write_fails flt n = false) →
     ∃ text,
       Flat.writeEnv_from keys flt file env (<[file := EmptyString]> fs) =
         (inr (), <[file := text]> fs) ∧
       mapEnv text = (env, None)) ∧
  (headers_fit env →
   mapEnv (Grouped.writeEnv_buffer keys env) = (env, None)).
Proof.
  intros Hkeys Hwf Hscan. split.
  - intros flt file fs Hw. exists (flat_text env (sort_Strings keys)).
    split.
    + unfold Flat.writeEnv_from.
      erewrite Flat_writeEnv_loop_ok; [|apply lookup_insert_eq|done].
      by rewrite append_nil_l, insert_insert_eq.
    + apply flat_round_trip; [|done..]. intros k. by apply elem_of_sorted.
  - intros Hhead. rewrite Grouped_writeEnv_buffer_text.
    apply grouped_round_trip; [|done..]. intros k. by apply elem_of_sorted.
Qed.

Ltac by_computation := eapply bool_decide_unpack; vm_compute; exact I.

Lemma writeEnv_mapEnv_round_trip_witness :
  (∃ text,
     Flat.writeEnv_from ["ZEBRA"; "APPLE"; "apple_b"] no_faults "target.env"
       example_env (<["target.env" := EmptyString]> ∅) =
       (inr (), <["target.env" := text]> ∅) ∧
     mapEnv text = (example_env, None)) ∧
  mapEnv (Grouped.writeEnv_buffer ["ZEBRA"; "APPLE"; "apple_b"] example_env)
    = (example_env, None).
Proof.
  destruct (writeEnv_mapEnv_round_trip example_env _
              example_env_enumeration)
    as [Hflat Hgrouped]; [by_computation..|].
  split; [by apply Hflat|]. apply Hgrouped. by_computation.
Defined.

(** C10 as stated fails: a value that ends with a carriage return is
    allowed by its hypotheses, and comes back from the flat text without
    it. *)
Lemma round_trip_loses_carriage_return :
  map_Forall well_formed cr_env ∧
  Flat.writeEnv no_faults "target.env" cr_env
    (<["target.env" := EmptyString]> ∅) =
    (inr (), <["target.env" := "A=x" +:+ String CR newline]> ∅) ∧
  mapEnv ("A=x" +:+ String CR newline) = (<["A" := "x"]> ∅, None) ∧
  cr_env ≠ <["A" := "x"]> ∅.
Proof.
  split; [by_computation|]. split; [by vm_compute|]. split; [by vm_compute|].
  intros H. apply (f_equal (λ m : gmap string string, m !! "A")) in H.
  vm_compute in H. discriminate.
Qed.

(** The same in the grouped variant. *)
Lemma grouped_round_trip_loses_carriage_return :
  mapEnv (Grouped.writeEnv_buffer (range_keys cr_env) cr_env) =
    (<["A" := "x"]> ∅, None).
Proof. by vm_compute. Qed.

(** Nor does a line longer than the scanner's buffer come back. *)
Lemma round_trip_loses_long_line :
  map_Forall well_formed long_env ∧
  mapEnv (flat_text long_env (sort_Strings (range_keys long_env))) =
    (∅, None).
Proof. split; [by_computation|by vm_compute]. Qed.

(** A line longer than the buffer ends the scan: nothing is parsed and no
    error is returned. *)
Lemma long_line_scan : ScanLines long_line = [] ∧ mapEnv long_line = (∅, None).
Proof. by vm_compute. Qed.

(** ** Idempotence *)



(** The flat variant needs no condition on the headers. *)
Lemma Flat_Sync_idempotent flt1 flt2 source target
    (fs fs1 : gmap string string) sData tData :
  fs !! source = Some sData → fs !! target = Some tData →
  no_trailing_CR (mapEnv sData).1 → no_trailing_CR (mapEnv tData).1 →
  source ≠ target +:+ ".bak" →
  backup_copy_fails flt2 = false → (∀ n, write_fails flt2 n = false) →
  Flat.Sync flt1 source target fs = (None, fs1) →
  ∃ fs2, Flat.Sync flt2 source target fs1 = (None, fs2) ∧
         fs2 !! target = fs1 !! target.
Proof.
  intros Hs Ht Hcrs Hcrt Hbak Hcp Hw H1.
  destruct (Sync_twice Flat.Sync
              (λ env, flat_text env (sort_Strings (range_keys env)))
              (λ flt, backup_copy_fails flt = false ∧
                      ∀ n, write_fails flt n = false)
              ltac:(intros ????? H; apply Flat_Sync_success in H
                      as (?&?&?&?&?&?&?&?&?&?); eauto 10)
              ltac:(intros ???????? ???? [??]; by eapply Flat_Sync_run)
              flt1 flt2 source target fs fs1 sData tData)
    as [Hfs1 Hfs2]; [done..| |done|done|done|done].
  apply flat_round_trip.
  - intros k. by apply elem_of_sorted.
  - apply merged_parsed_well_formed.
  - by apply merged_parsed_scannable.
Qed.


(** One run already repeats a header when the keys of another group sort
    between the keys of a group. *)
Lemma grouped_header_repeated :
  Grouped.writeEnv_buffer (range_keys db_env) db_env =
    "# DB" +:+ newline +:+ "DB=a" +:+ newline +:+ newline
    +:+ "# DB2" +:+ newline +:+ "DB2=b" +:+ newline +:+ newline
    +:+ "# DB" +:+ newline +:+ "DB_HOST=c" +:+ newline.
Proof. by vm_compute. Qed.

(** ** Failures *)

Section failures.
Implicit Types (fs : gmap string string) (flt : faults).
Implicit Types (source target : string).

(** A parse error leaves [Sync] before the backup copy. *)
Lemma Sync_parse_error flt source target fs sData tData e :
  fs !! source = Some sData → fs !! target = Some tData →
  (mapEnv sData).2 = Some e ∨
  (mapEnv sData).2 = None ∧ (mapEnv tData).2 = Some e →
  (∃ fs', Flat.Sync flt source target fs = (Some e, fs') ∧
          fs' !! target = Some tData) ∧
  (∃ fs', Grouped.Sync flt source target fs = (Some e, fs') ∧
          fs' !! target = Some tData).
Proof.
  intros Hs Ht He. unfold Flat.Sync, Grouped.Sync.
  rewrite Flat_Sync_body_run, Grouped_Sync_body_run, Hs, Ht.
  destruct (mapEnv sData) as [sMap [e1|]]; simpl in He.
  - destruct He as [[= ->]|[? _]]; [|done].
    split; eexists; (split; [done|]); by rewrite cleanup_target.
  - destruct He as [?|[_ He]]; [done|].
    destruct (mapEnv tData) as [tMap [e2|]]; simpl in He; [|done].
    injection He as ->.
    split; eexists; (split; [done|]); by rewrite cleanup_target.
Qed.

Lemma range_keys_nonempty (env : gmap string string) :
  env ≠ ∅ → ∃ k keys, sort_Strings (range_keys env) = k :: keys.
Proof.
  intros Hne. destruct (sort_Strings (range_keys env)) as [|k keys] eqn:E;
    [|by eauto].
  exfalso. apply Hne. apply map_to_list_empty_iff.
  pose proof (sort_Strings_Permutation (range_keys env)) as Hp.
  rewrite E in Hp. apply Permutation_nil_l in Hp.
  unfold range_keys in Hp. symmetry in Hp. by apply fmap_nil_inv in Hp.
Qed.

Lemma Flat_writeEnv_loop_fails flt i file (env : gmap string string) k
    keys fs :
  write_fails flt i = true →
  ∃ e, Flat.writeEnv_loop flt i file env (k :: keys) fs = (inl e, fs).
Proof.
  intros Hw. cbn [Flat.writeEnv_loop]. unfold mbind, io_bind.
  rewrite WriteString_fails by done. by eexists.
Qed.
End failures.

(** C4, as amended.  For every source and target file from one of which the
    scanner delivers a line that is not blank, does not start with [#] and
    holds no [=], [Sync] returns the parse error naming such a line, and
    the target's bytes after the call are its bytes before, in both
    variants.  The scanner delivers the lines of a file, each without its
    trailing carriage return, up to the first line of 65536 bytes or
    more. *)
Theorem Sync_parse_strictness flt source target (fs : gmap string string)
    sData tData token :
  fs !! source = Some sData → fs !! target = Some tData →
  token ∈ ScanLines sData ∨ token ∈ ScanLines tData →
  classify token = Invalid →
  ∃ bad,
    (bad ∈ ScanLines sData ∨ bad ∈ ScanLines tData) ∧
    classify bad = Invalid ∧
    (∃ fs', Flat.Sync flt source target fs = (Some (Errorf_split bad), fs')
            ∧ fs' !! target = Some tData) ∧
    (∃ fs', Grouped.Sync flt source target fs = (Some (Errorf_split bad), fs')
            ∧ fs' !! target = Some tData).
Proof.
  intros Hs Ht Hin Hinvalid.
  destruct ((mapEnv sData).2) as [e|] eqn:Hse.
  - apply mapEnv_error in Hse as Hbad. destruct Hbad as (bad & Hb & Hc & ->).
    exists bad. split; [by left|]. split; [done|].
    eapply Sync_parse_error; eauto.
  - destruct Hin as [Hin|Hin].
    + destruct (mapEnv_invalid sData) as (bad & _ & _ & Hbad); [by eauto|].
      congruence.
    + destruct (mapEnv_invalid tData) as (bad & Hb & Hc & Hbad); [by eauto|].
      exists bad. split; [by right|]. split; [done|].
      eapply Sync_parse_error; eauto.
Qed.

Lemma Sync_parse_strictness_witness :
  ∃ bad,
    (bad ∈ ScanLines ("FOO=1" +:+ newline +:+ "BADLINE" +:+ newline) ∨
     bad ∈ ScanLines example_target) ∧
    classify bad = Invalid ∧
    (∃ fs', Flat.Sync no_faults "source.env" "target.env"
              (<["source.env" := "FOO=1" +:+ newline +:+ "BADLINE"
                                 +:+ newline]> example_fs) =
              (Some (Errorf_split bad), fs') ∧
            fs' !! "target.env" = Some example_target) ∧
    (∃ fs', Grouped.Sync no_faults "source.env" "target.env"
              (<["source.env" := "FOO=1" +:+ newline +:+ "BADLINE"
                                 +:+ newline]> example_fs) =
              (Some (Errorf_split bad), fs') ∧
            fs' !! "target.env" = Some example_target).
Proof.
  apply (Sync_parse_strictness no_faults "source.env" "target.env" _
           ("FOO=1" +:+ newline +:+ "BADLINE" +:+ newline) example_target
           "BADLINE").
  - reflexivity.
  - reflexivity.
  - left. right. left.
  - reflexivity.
Defined.

(** C4 as stated fails: the source is one line of 70000 bytes without [=],
    neither blank nor a comment; the scanner gives up on it, [mapEnv]
    returns the empty mapping and no error, and [Sync] returns nil; the
    grouped variant rewrites the target. *)
Lemma Sync_accepts_long_invalid_line :
  long_line ∈ Split long_line LF ∧ classify long_line = Invalid ∧
  long_fs !! "source.env" = Some long_line ∧
  (Flat.Sync no_faults "source.env" "target.env" long_fs).1 = None ∧
  (Grouped.Sync no_faults "source.env" "target.env" long_fs).1 = None ∧
  long_fs !! "target.env" = Some ("A=1" +:+ newline) ∧
  (Grouped.Sync no_faults "source.env" "target.env" long_fs).2
    !! "target.env" = Some ("# A" +:+ newline +:+ "A=1" +:+ newline).
Proof.
  split.
  { rewrite Split_no_sep by by vm_compute. left. }
  split; [by vm_compute|]. split; [apply lookup_insert_eq|].
  by vm_compute.
Qed.

(** C1 is not what the code does.  The deferred function receives the nil
    error of the moment the [defer] statement ran, so it never copies the
    backup over the target.  When the first write fails after the target was
    truncated, [Sync] returns the write error and the target is left empty,
    whatever it held before: in the grouped variant always, in the flat
    variant when the backup copy succeeded and there is a key to write. *)
Theorem Sync_write_failure_leaves_target_empty flt source target
    (fs : gmap string string) sData tData :
  fs !! source = Some sData → fs !! target = Some tData →
  (mapEnv sData).2 = None → (mapEnv tData).2 = None →
  write_fails flt 0 = true →
  (∃ e fs', Grouped.Sync flt source target fs = (Some e, fs') ∧
            fs' !! target = Some EmptyString) ∧
  (backup_copy_fails flt = false →
   (mapEnv tData).1 ∪ (mapEnv sData).1 ≠ ∅ →
   ∃ e fs', Flat.Sync flt source target fs = (Some e, fs') ∧
            fs' !! target = Some EmptyString).
Proof.
  intros Hs Ht Hse Hte Hw. split.
  - unfold Grouped.Sync. rewrite Grouped_Sync_body_run, Hs, Ht.
    destruct (mapEnv sData) as [sMap [e|]]; [done|].
    destruct (mapEnv tData) as [tMap [e|]]; [done|].
    erewrite Grouped_writeEnv_run by apply lookup_insert_eq. cbv zeta.
    rewrite Hw. do 2 eexists. split; [done|].
    rewrite cleanup_target. apply lookup_insert_eq.
  - intros Hcp Hne. unfold Flat.Sync. rewrite Flat_Sync_body_run, Hs, Ht.
    destruct (mapEnv sData) as [sMap [e|]]; [done|].
    destruct (mapEnv tData) as [tMap [e|]]; [done|].
    rewrite Hcp, (proj1 (appendNewEnv_union sMap tMap)).
    simpl in Hne. apply range_keys_nonempty in Hne as (k & keys & Hkeys).
    unfold wrapped, Flat.writeEnv, Flat.writeEnv_from. rewrite Hkeys.
    edestruct Flat_writeEnv_loop_fails as [e ->]; [done|].
    do 2 eexists. split; [done|].
    rewrite cleanup_target. apply lookup_insert_eq.
Qed.

Lemma Sync_write_failure_leaves_target_empty_witness :
  example_fs !! "target.env" = Some example_target ∧
  (∃ e fs', Grouped.Sync write_faults "source.env" "target.env" example_fs
              = (Some e, fs') ∧
            fs' !! "target.env" = Some EmptyString) ∧
  (∃ e fs', Flat.Sync write_faults "source.env" "target.env" example_fs
              = (Some e, fs') ∧
            fs' !! "target.env" = Some EmptyString).
Proof.
  split; [reflexivity|].
  destruct (Sync_write_failure_leaves_target_empty write_faults
              "source.env" "target.env" example_fs
              example_source example_target) as [Hgrouped Hflat];
    [reflexivity..|].
  split; [exact Hgrouped|]. apply Hflat; [reflexivity|].
  intros H. apply (f_equal (λ m : gmap string string, m !! "FOO")) in H.
  vm_compute in H. discriminate.
Defined.

(** The flat variant does what C3 says: when the backup copy fails, [Sync]
    returns an error and the target keeps its bytes. *)
Lemma Flat_Sync_backup_failure flt source target (fs : gmap string string) :
  backup_copy_fails flt = true →
  ∃ e fs', Flat.Sync flt source target fs = (Some e, fs') ∧
           fs' !! target = fs !! target.
Proof.
  intros Hcp. unfold Flat.Sync. rewrite Flat_Sync_body_run.
  destruct (fs !! source) as [sData|] eqn:Hs;
    [|do 2 eexists; split; [done|]; by rewrite cleanup_target].
  destruct (fs !! target) as [tData|] eqn:Ht;
    [|do 2 eexists; split; [done|]; by rewrite cleanup_target].
  destruct (mapEnv sData) as [sMap [e|]];
    [do 2 eexists; split; [done|]; by rewrite cleanup_target|].
  destruct (mapEnv tData) as [tMap [e|]];
    [do 2 eexists; split; [done|]; by rewrite cleanup_target|].
  rewrite Hcp. do 2 eexists. split; [done|]. by rewrite cleanup_target.
Qed.

(** C3 is not what the grouped variant does.  It drops the result of the
    backup copy: when the copy fails and the write succeeds, [Sync] returns
    nil and the target holds the newly written text, with no backup ever
    taken. *)
Theorem Grouped_Sync_ignores_backup_failure flt source target
    (fs : gmap string string) sData tData sMap tMap :
  fs !! source = Some sData → fs !! target = Some tData →
  mapEnv sData = (sMap, None) → mapEnv tData = (tMap, None) →
  backup_copy_fails flt = true → write_fails flt 0 = false →
  ∃ fs', Grouped.Sync flt source target fs = (None, fs') ∧
         fs' !! target =
           Some (grouped_text (tMap ∪ sMap) true EmptyString
                   (sort_Strings (range_keys (tMap ∪ sMap)))).
Proof.
  intros Hs Ht Hsm Htm _ Hw.
  destruct (Grouped_Sync_run flt source target fs sData tData sMap tMap)
    as (fs' & Hsync & Htarget & _); [done..|].
  by exists fs'.
Qed.

Lemma Grouped_Sync_ignores_backup_failure_witness :
  example_fs !! "target.env" = Some ("FOO=0" +:+ newline) ∧
  ∃ fs', Grouped.Sync copy_faults "source.env" "target.env" example_fs
           = (None, fs') ∧
         fs' !! "target.env" =
           Some ("# BAR" +:+ newline +:+ "BAR=2" +:+ newline +:+ newline
                 +:+ "# FOO" +:+ newline +:+ "FOO=0" +:+ newline).
Proof.
  split; [reflexivity|].
  destruct (Grouped_Sync_ignores_backup_failure copy_faults "source.env"
              "target.env" example_fs example_source example_target
              (<["FOO" := "1"]> (<["BAR" := "2"]> ∅)) (<["FOO" := "0"]> ∅))
    as (fs' & Hsync & Htarget); [by vm_compute..|].
  exists fs'. split; [done|]. rewrite Htarget. by vm_compute.
Defined.

(** * Further properties of the code *)

(** ** The differ *)

Section differ_more.
Implicit Types (sMap tMap added : gmap string string).

Lemma lookup_absent_from tMap sMap k :
  absent_from tMap sMap !! k =
    match tMap !! k with Some _ => None | None => sMap !! k end.
Proof.
  unfold absent_from. destruct (tMap !! k) as [w|] eqn:Et.
  - apply map_lookup_filter_None. right. intros v _. simpl. congruence.
  - destruct (sMap !! k) as [v|] eqn:Es.
    + by apply map_lookup_filter_Some.
    + apply map_lookup_filter_None. by left.
Qed.

Lemma Grouped_appendNewEnv_range_lookup pairs tMap added k :
  (foldl (λ acc kv,
            match acc.1 !! kv.1 with
            | Some _ => acc
            | None => (<[kv.1 := kv.2]> acc.1, <[kv.1 := kv.2]> acc.2)
            end) (tMap, added) pairs).2 !! k =
    match tMap !! k with
    | Some _ => added !! k
    | None =>
        match (list_to_map pairs : gmap string string) !! k with
        | Some v => Some v
        | None => added !! k
        end
    end.
Proof.
  revert tMap added. induction pairs as [|[k' v'] pairs IH]; intros tMap added.
  - simpl. rewrite lookup_empty. by destruct (tMap !! k).
  - cbn [foldl fst snd list_to_map foldr].
    destruct (tMap !! k') as [w|] eqn:Et.
    + rewrite IH. destruct (decide (k = k')) as [->|Hne].
      * by rewrite Et.
      * by rewrite lookup_insert_ne.
    + rewrite IH. destruct (decide (k = k')) as [->|Hne].
      * by rewrite Et, !lookup_insert_eq.
      * by rewrite !lookup_insert_ne.
Qed.

Lemma Grouped_appendNewEnv_range_added pairs sMap tMap :
  pairs ≡ₚ map_to_list sMap →
  (Grouped.appendNewEnv_range pairs tMap).2 = absent_from tMap sMap.
Proof.
  intros Hperm. apply map_eq. intros k.
  unfold Grouped.appendNewEnv_range.
  rewrite Grouped_appendNewEnv_range_lookup, lookup_absent_from.
  rewrite <-(list_to_map_flip sMap pairs) by done.
  rewrite lookup_empty. by destruct (tMap !! k), (sMap !! k).
Qed.
End differ_more.

(** X1.  For every source mapping, target mapping and order in which the
    source is enumerated, the second result of the grouped [appendNewEnv]
    holds exactly the entries of the source whose keys the target lacked:
    it shares no key with the original target, every entry of it is an
    entry of the source, and the first result is the original target
    united with it. *)
Theorem appendNewEnv_added_subset (sMap tMap : gmap string string)
    (pairs : list (string * string)) :
  pairs ≡ₚ map_to_list sMap →
  (Grouped.appendNewEnv_range pairs tMap).2 = absent_from tMap sMap ∧
  (Grouped.appendNewEnv_range pairs tMap).2 ##ₘ tMap ∧
  (Grouped.appendNewEnv_range pairs tMap).2 ⊆ sMap ∧
  (Grouped.appendNewEnv_range pairs tMap).1 =
    tMap ∪ (Grouped.appendNewEnv_range pairs tMap).2.
Proof.
  intros Hperm. rewrite (Grouped_appendNewEnv_range_added _ sMap) by done.
  split; [done|]. split; [|split].
  - apply map_disjoint_spec. intros k v w Ha Ht.
    rewrite lookup_absent_from, Ht in Ha. done.
  - apply map_filter_subseteq.
  - rewrite Grouped_appendNewEnv_range_fst.
    rewrite (Flat_appendNewEnv_range_perm _ sMap) by done.
    symmetry. apply union_restricted.
Qed.

Lemma appendNewEnv_added_subset_witness :
  (Grouped.appendNewEnv_range [("BAR", "2"); ("FOO", "1")]
     (<["FOO" := "0"]> ∅)).2 =
    absent_from (<["FOO" := "0"]> ∅) (<["BAR" := "2"]> (<["FOO" := "1"]> ∅)) ∧
  (Grouped.appendNewEnv_range [("BAR", "2"); ("FOO", "1")]
     (<["FOO" := "0"]> ∅)).2 ##ₘ <["FOO" := "0"]> ∅ ∧
  (Grouped.appendNewEnv_range [("BAR", "2"); ("FOO", "1")]
     (<["FOO" := "0"]> ∅)).2 ⊆ <["BAR" := "2"]> (<["FOO" := "1"]> ∅) ∧
  (Grouped.appendNewEnv_range [("BAR", "2"); ("FOO", "1")]
     (<["FOO" := "0"]> ∅)).1 =
    <["FOO" := "0"]> ∅ ∪
    (Grouped.appendNewEnv_range [("BAR", "2"); ("FOO", "1")]
       (<["FOO" := "0"]> ∅)).2.
Proof.
  apply appendNewEnv_added_subset.
  replace (map_to_list (<["BAR" := "2"]> (<["FOO" := "1"]> ∅)
                        : gmap string string))
    with [("FOO", "1"); ("BAR", "2")] by by vm_compute.
  apply perm_swap.
Defined.

(** X2.  For every source and target mapping and every order of
    enumeration, the keys of the merged mapping are the keys of the target
    together with the keys of the source, and a key that the target lacked
    holds the value the source has for it; this in both variants. *)
Theorem appendNewEnv_key_set (sMap tMap : gmap string string)
    (pairs : list (string * string)) :
  pairs ≡ₚ map_to_list sMap →
  dom (Flat.appendNewEnv_range pairs tMap) = dom tMap ∪ dom sMap ∧
  dom (Grouped.appendNewEnv_range pairs tMap).1 = dom tMap ∪ dom sMap ∧
  ∀ k, tMap !! k = None →
       Flat.appendNewEnv_range pairs tMap !! k = sMap !! k ∧
       (Grouped.appendNewEnv_range pairs tMap).1 !! k = sMap !! k.
Proof.
  intros Hperm. rewrite Grouped_appendNewEnv_range_fst.
  rewrite (Flat_appendNewEnv_range_perm _ sMap) by done.
  split; [apply dom_union_L|]. split; [apply dom_union_L|].
  intros k Hk. rewrite lookup_union, Hk. by rewrite (left_id_L None (∪)).
Qed.

Lemma appendNewEnv_key_set_witness :
  dom (Flat.appendNewEnv_range [("BAR", "2"); ("FOO", "1")]
         (<["FOO" := "0"]> ∅)) =
    dom (<["FOO" := "0"]> ∅ : gmap string string) ∪
    dom (<["BAR" := "2"]> (<["FOO" := "1"]> ∅) : gmap string string) ∧
  dom (Grouped.appendNewEnv_range [("BAR", "2"); ("FOO", "1")]
         (<["FOO" := "0"]> ∅)).1 =
    dom (<["FOO" := "0"]> ∅ : gmap string string) ∪
    dom (<["BAR" := "2"]> (<["FOO" := "1"]> ∅) : gmap string string) ∧
  ∀ k, (<["FOO" := "0"]> ∅ : gmap string string) !! k = None →
       Flat.appendNewEnv_range [("BAR", "2"); ("FOO", "1")]
         (<["FOO" := "0"]> ∅) !! k =
         (<["BAR" := "2"]> (<["FOO" := "1"]> ∅) : gmap string string) !! k ∧
       (Grouped.appendNewEnv_range [("BAR", "2"); ("FOO", "1")]
          (<["FOO" := "0"]> ∅)).1 !! k =
         (<["BAR" := "2"]> (<["FOO" := "1"]> ∅) : gmap string string) !! k.
Proof.
  apply appendNewEnv_key_set.
  replace (map_to_list (<["BAR" := "2"]> (<["FOO" := "1"]> ∅)
                        : gmap string string))
    with [("FOO", "1"); ("BAR", "2")] by by vm_compute.
  apply perm_swap.
Defined.

(** X3.  Merging the same source a second time changes nothing and adds
    nothing; an empty source leaves the target as it is and adds nothing;
    into an empty target the whole source is added. *)
Theorem appendNewEnv_absorbs (sMap tMap : gmap string string) :
  Flat.appendNewEnv sMap (Flat.appendNewEnv sMap tMap) =
    Flat.appendNewEnv sMap tMap ∧
  Grouped.appendNewEnv sMap (Grouped.appendNewEnv sMap tMap).1 =
    ((Grouped.appendNewEnv sMap tMap).1, ∅) ∧
  Grouped.appendNewEnv ∅ tMap = (tMap, ∅) ∧
  Grouped.appendNewEnv sMap ∅ = (sMap, sMap).
Proof.
  assert (∀ s t : gmap string string,
            Grouped.appendNewEnv s t = (t ∪ s, absent_from t s)) as Hg.
  { intros s t. unfold Grouped.appendNewEnv.
    rewrite (surjective_pairing (Grouped.appendNewEnv_range _ _)).
    rewrite Grouped_appendNewEnv_range_fst.
    rewrite (Flat_appendNewEnv_range_perm _ s) by done.
    by rewrite (Grouped_appendNewEnv_range_added _ s). }
  assert (∀ s t : gmap string string, absent_from (t ∪ s) s = ∅) as He.
  { intros s t. apply map_eq. intros k.
    rewrite lookup_absent_from, lookup_empty, lookup_union.
    destruct (t !! k), (s !! k); done. }
  split; [|split; [|split]].
  - rewrite !(proj1 (appendNewEnv_union _ _)). apply union_union_r.
  - rewrite !Hg. simpl. by rewrite union_union_r, He.
  - rewrite Hg, (right_id_L ∅ (∪)).
    assert (absent_from tMap ∅ = ∅) as ->; [|done].
    apply map_eq. intros k. rewrite lookup_absent_from, !lookup_empty.
    by destruct (tMap !! k).
  - rewrite Hg, (left_id_L ∅ (∪)).
    assert (absent_from ∅ sMap = sMap) as ->; [|done].
    apply map_eq. intros k. by rewrite lookup_absent_from, lookup_empty.
Qed.

(** ** The report *)

Section report.
Implicit Types (sMap tMap env : gmap string string).

Lemma absent_from_empty_iff tMap sMap :
  absent_from tMap sMap = ∅ ↔ dom sMap ⊆ dom tMap.
Proof.
  split.
  - intros H k [v Hv]%elem_of_dom. apply elem_of_dom.
    apply (f_equal (λ m : gmap string string, m !! k)) in H.
    rewrite lookup_absent_from, lookup_empty, Hv in H.
    by destruct (tMap !! k).
  - intros H. apply map_eq. intros k.
    rewrite lookup_absent_from, lookup_empty.
    destruct (tMap !! k) as [w|] eqn:Et; [done|].
    destruct (sMap !! k) as [v|] eqn:Es; [|done].
    assert (k ∈ dom tMap) as [w Hw]%elem_of_dom
      by (apply H, elem_of_dom; eauto).
    congruence.
Qed.

Lemma length_sorted_range_keys env :
  length (sort_Strings (range_keys env)) = size env.
Proof.
  rewrite (Permutation_length (sort_Strings_Permutation _)).
  unfold range_keys. by rewrite length_fmap, length_map_to_list.
Qed.
End report.

(** X4.  For every source and target mapping and every order of
    enumeration, [print] applied to the added subset of [appendNewEnv]
    writes nothing when every key of the source is a key of the target, and
    otherwise the line [New env added] followed by the lines [key=value]
    of exactly the entries of the source whose keys the target lacked, in
    ascending order of the keys. *)
Theorem print_reports_added (sMap tMap : gmap string string)
    (keys : list string) :
  keys ≡ₚ range_keys (Grouped.appendNewEnv sMap tMap).2 →
  Stdout.print_from keys (Grouped.appendNewEnv sMap tMap).2 =
    if decide (dom sMap ⊆ dom tMap) then EmptyString
    else "New env added" +:+ newline +:+
         flat_text (absent_from tMap sMap)
           (sort_Strings (range_keys (absent_from tMap sMap))).
Proof.
  unfold Grouped.appendNewEnv.
  rewrite (Grouped_appendNewEnv_range_added _ sMap) by done.
  intros Hkeys. unfold Stdout.print_from. cbv zeta.
  rewrite (sort_Strings_unique keys (range_keys (absent_from tMap sMap)))
    by done.
  rewrite length_sorted_range_keys.
  destruct (decide (dom sMap ⊆ dom tMap)) as [Hsub|Hsub].
  - apply absent_from_empty_iff in Hsub. rewrite Hsub.
    by vm_compute.
  - rewrite decide_True; [by rewrite append_assoc|].
    destruct (decide (size (absent_from tMap sMap) = 0)) as [Hz|Hz]; [|lia].
    apply map_size_empty_iff in Hz. by apply absent_from_empty_iff in Hz.
Qed.

Lemma print_reports_added_witness :
  Stdout.print_from ["BAR"]
    (Grouped.appendNewEnv (<["BAR" := "2"]> (<["FOO" := "1"]> ∅))
       (<["FOO" := "0"]> ∅)).2 =
    "New env added" +:+ newline +:+ "BAR=2" +:+ newline.
Proof.
  rewrite print_reports_added by by vm_compute.
  by vm_compute.
Defined.

(** ** The orchestrator: what a call leaves on disk *)

Section frame.
Implicit Types (fs env : gmap string string) (flt : faults).
Implicit Types (source target file path : string).

Lemma Flat_writeEnv_loop_frame flt i file env keys fs :
  (∀ path, path ≠ file →
     (Flat.writeEnv_loop flt i file env keys fs).2 !! path = fs !! path) ∧
  (is_Some (fs !! file) →
     is_Some ((Flat.writeEnv_loop flt i file env keys fs).2 !! file)).
Proof.
  revert i fs. induction keys as [|k keys IH]; intros i fs; [done|].
  cbn [Flat.writeEnv_loop]. unfold mbind, io_bind, wrapped, WriteString.
  destruct (write_fails flt i); [done|].
  destruct (IH (S i) (<[file := default EmptyString (fs !! file) +:+
                          valueFmt k (env !!! k)]> fs)) as [IH1 IH2].
  split.
  - intros path Hne. rewrite IH1 by done. by rewrite lookup_insert_ne.
  - intros _. apply IH2. rewrite lookup_insert_eq. eauto.
Qed.

Lemma left_by_cleanup target fs fs' :
  (∀ path, path ≠ target → path ≠ target +:+ ".bak" →
           fs' !! path = fs !! path) →
  (is_Some (fs' !! target) ↔ is_Some (fs !! target)) →
  left_by_Sync target fs (cleanup None (target +:+ ".bak") target fs').
Proof.
  intros Hother Htarget. unfold cleanup, rm. split; [|split].
  - apply lookup_delete_eq.
  - intros path H1 H2. rewrite lookup_delete_ne by done. by apply Hother.
  - rewrite lookup_delete_ne by apply bak_neq. done.
Qed.

Lemma written_frame target (tData : string) (b : bool) fs fs' :
  fs !! target = Some tData →
  (∀ path, path ≠ target →
     fs' !! path =
       (<[target := EmptyString]>
          (if b then fs else <[target +:+ ".bak" := tData]> fs)) !! path) →
  is_Some (fs' !! target) →
  left_by_Sync target fs (cleanup None (target +:+ ".bak") target fs').
Proof.
  intros Ht Hother Htarget. apply left_by_cleanup.
  - intros path H1 H2. rewrite Hother, lookup_insert_ne by done.
    destruct b; [done|]. by rewrite lookup_insert_ne.
  - rewrite Ht. split; eauto.
Qed.

Lemma Flat_Sync_left flt source target fs :
  left_by_Sync target fs (Flat.Sync flt source target fs).2.
Proof.
  unfold Flat.Sync. rewrite Flat_Sync_body_run.
  destruct (fs !! source) as [sData|] eqn:Hs; [|by apply left_by_cleanup].
  destruct (fs !! target) as [tData|] eqn:Ht; [|by apply left_by_cleanup].
  destruct (mapEnv sData) as [sMap [e|]]; [by apply left_by_cleanup|].
  destruct (mapEnv tData) as [tMap [e|]]; [by apply left_by_cleanup|].
  destruct (backup_copy_fails flt); [by apply left_by_cleanup|].
  unfold wrapped, Flat.writeEnv, Flat.writeEnv_from.
  match goal with
  | |- context [Flat.writeEnv_loop ?f ?i ?t ?e ?k ?x] =>
      destruct (Flat_writeEnv_loop_frame f i t e k x) as [H1 H2];
      destruct (Flat.writeEnv_loop f i t e k x) as [[e'|[]] fs'']
  end; simpl in *;
    (apply (written_frame target tData false); [done|done|];
     apply H2; rewrite lookup_insert_eq; eauto).
Qed.

Lemma Grouped_Sync_left flt source target fs :
  left_by_Sync target fs (Grouped.Sync flt source target fs).2.
Proof.
  unfold Grouped.Sync. rewrite Grouped_Sync_body_run.
  destruct (fs !! source) as [sData|] eqn:Hs; [|by apply left_by_cleanup].
  destruct (fs !! target) as [tData|] eqn:Ht; [|by apply left_by_cleanup].
  destruct (mapEnv sData) as [sMap [e|]]; [by apply left_by_cleanup|].
  destruct (mapEnv tData) as [tMap [e|]]; [by apply left_by_cleanup|].
  erewrite Grouped_writeEnv_run by apply lookup_insert_eq. cbv zeta.
  destruct (write_fails flt 0); simpl.
  - apply (written_frame target tData (backup_copy_fails flt));
      [done|done|]. rewrite lookup_insert_eq. eauto.
  - apply (written_frame target tData (backup_copy_fails flt)); [done| |].
    + intros path Hne. by rewrite !lookup_insert_ne.
    + rewrite lookup_insert_eq. eauto.
Qed.
End frame.

(** X5.  Whatever the files, the faults and the outcome, a call of [Sync]
    in either variant leaves no file at the backup path, leaves every path
    other than the target and the backup path as it was, and leaves a
    target exactly if there was one: it creates no file and removes none
    but the backup. *)
Theorem Sync_touches_only_target_and_backup (flt : faults)
    (source target : string) (fs : gmap string string) :
  left_by_Sync target fs (Flat.Sync flt source target fs).2 ∧
  left_by_Sync target fs (Grouped.Sync flt source target fs).2.
Proof. split; [apply Flat_Sync_left|apply Grouped_Sync_left]. Qed.

(** ** The orchestrator: when it fails and when it succeeds *)

(** X6.  When the source does not exist, [Sync] returns the open error
    wrapped with [couldn't open source file]; when the source exists and
    the target does not, it returns the open error wrapped with [couldn't
    open target file] and there is still no target afterwards: [Sync] does
    not create it.  In both cases the files it leaves are the files before
    without the backup path; this in both variants. *)
Theorem Sync_missing_file (flt : faults) (source target : string)
    (fs : gmap string string) :
  (fs !! source = None →
   Flat.Sync flt source target fs =
     (Some (Wrap (OsError "open") "couldn't open source file"),
      delete (target +:+ ".bak") fs) ∧
   Grouped.Sync flt source target fs =
     (Some (Wrap (OsError "open") "couldn't open source file"),
      delete (target +:+ ".bak") fs)) ∧
  (is_Some (fs !! source) → fs !! target = None →
   Flat.Sync flt source target fs =
     (Some (Wrap (OsError "open") "couldn't open target file"),
      delete (target +:+ ".bak") fs) ∧
   Grouped.Sync flt source target fs =
     (Some (Wrap (OsError "open") "couldn't open target file"),
      delete (target +:+ ".bak") fs) ∧
   delete (target +:+ ".bak") fs !! target = None).
Proof.
  unfold Flat.Sync, Grouped.Sync.
  rewrite Flat_Sync_body_run, Grouped_Sync_body_run. split.
  - intros ->. done.
  - intros [sData ->] Ht. rewrite Ht. split; [done|]. split; [done|].
    by rewrite lookup_delete_ne by apply bak_neq.
Qed.

Lemma Sync_missing_file_witness :
  (Flat.Sync no_faults "missing.env" "target.env" example_fs =
     (Some (Wrap (OsError "open") "couldn't open source file"),
      delete ("target.env" +:+ ".bak") example_fs) ∧
   Grouped.Sync no_faults "missing.env" "target.env" example_fs =
     (Some (Wrap (OsError "open") "couldn't open source file"),
      delete ("target.env" +:+ ".bak") example_fs)) ∧
  (Flat.Sync no_faults "source.env" "new.env" example_fs =
     (Some (Wrap (OsError "open") "couldn't open target file"),
      delete ("new.env" +:+ ".bak") example_fs) ∧
   Grouped.Sync no_faults "source.env" "new.env" example_fs =
     (Some (Wrap (OsError "open") "couldn't open target file"),
      delete ("new.env" +:+ ".bak") example_fs) ∧
   delete ("new.env" +:+ ".bak") example_fs !! "new.env" = None).
Proof.
  split.
  - apply (proj1 (Sync_missing_file no_faults "missing.env" "target.env"
                    example_fs)).
    reflexivity.
  - apply (proj2 (Sync_missing_file no_faults "source.env" "new.env"
                    example_fs)).
    + by eexists.
    + reflexivity.
Defined.

Section success.
Implicit Types (fs env : gmap string string) (flt : faults).

(** The flat loop returns nil exactly when none of its writes fails. *)
Lemma Flat_writeEnv_loop_nil flt i file env keys fs :
  result_error (Flat.writeEnv_loop flt i file env keys fs).1 = None ↔
  ∀ j, j < length keys → write_fails flt (i + j) = false.
Proof.
  revert i fs. induction keys as [|k keys IH]; intros i fs.
  - simpl. split; [intros _ j Hj; lia|done].
  - cbn [Flat.writeEnv_loop]. unfold mbind, io_bind, wrapped, WriteString.
    destruct (write_fails flt i) eqn:Hw.
    + simpl. split; [done|]. intros H. specialize (H 0).
      rewrite Nat.add_0_r, Hw in H. simpl in H.
      assert (true = false) by (apply H; lia). done.
    + rewrite IH. simpl. split.
      * intros H [|j] Hj; [by rewrite Nat.add_0_r|].
        rewrite Nat.add_succ_r. apply (H j). simpl in Hj. lia.
      * intros H j Hj. specialize (H (S j)).
        rewrite Nat.add_succ_r in H. apply H. simpl. lia.
Qed.

End success.

(** X7.  A grouped [Sync] returns nil exactly when the source and the
    target exist, [mapEnv] returns no error for either, and the one write
    of the buffer does not fail; the result of the backup copy plays no
    part. *)
Theorem Grouped_Sync_nil_iff (flt : faults) (source target : string)
    (fs : gmap string string) :
  (Grouped.Sync flt source target fs).1 = None ↔
  ∃ sData tData,
    fs !! source = Some sData ∧ fs !! target = Some tData ∧
    (mapEnv sData).2 = None ∧ (mapEnv tData).2 = None ∧
    write_fails flt 0 = false.
Proof.
  split.
  - intros H.
    destruct (Grouped.Sync flt source target fs) as [e fs'] eqn:E.
    simpl in H. subst e.
    apply Grouped_Sync_success
      in E as (sData & tData & sMap & tMap & Hs & Ht & Hsm & Htm & Hw & _).
    exists sData, tData. by rewrite Hsm, Htm.
  - intros (sData & tData & Hs & Ht & Hsm & Htm & Hw).
    destruct (mapEnv sData) as [sMap e1] eqn:E1.
    destruct (mapEnv tData) as [tMap e2] eqn:E2. simpl in *. subst.
    destruct (Grouped_Sync_run flt source target fs sData tData sMap tMap)
      as (fs' & -> & _); done.
Qed.

(** X8.  A flat [Sync] returns nil exactly when the source and the target
    exist, [mapEnv] returns no error for either, the backup copy succeeds,
    and none of the writes fails, of which there is one per key of the
    merged mapping. *)
Theorem Flat_Sync_nil_iff (flt : faults) (source target : string)
    (fs : gmap string string) :
  (Flat.Sync flt source target fs).1 = None ↔
  ∃ sData tData,
    fs !! source = Some sData ∧ fs !! target = Some tData ∧
    (mapEnv sData).2 = None ∧ (mapEnv tData).2 = None ∧
    backup_copy_fails flt = false ∧
    ∀ i, i < size ((mapEnv tData).1 ∪ (mapEnv sData).1) →
         write_fails flt i = false.
Proof.
  unfold Flat.Sync. rewrite Flat_Sync_body_run.
  destruct (fs !! source) as [sData|] eqn:Hs;
    [|split; [done|by intros (?&?&?&_)]].
  destruct (fs !! target) as [tData|] eqn:Ht;
    [|split; [done|by intros (?&?&?&?&_)]].
  destruct (mapEnv sData) as [sMap [e|]] eqn:Hsm.
  { split; [done|]. intros (?&?&?&?&H&_). simplify_eq.
    by rewrite Hsm in H. }
  destruct (mapEnv tData) as [tMap [e|]] eqn:Htm.
  { split; [done|]. intros (?&?&?&?&_&H&_). simplify_eq.
    by rewrite Htm in H. }
  destruct (backup_copy_fails flt) eqn:Hcp.
  { split; [done|]. by intros (?&?&?&?&_&_&?&_). }
  rewrite (proj1 (appendNewEnv_union sMap tMap)).
  unfold Flat.writeEnv, Flat.writeEnv_from.
  pose proof (Flat_writeEnv_loop_nil flt 0 target (tMap ∪ sMap)
                (sort_Strings (range_keys (tMap ∪ sMap)))
                (<[target := EmptyString]>
                   (<[target +:+ ".bak" := tData]> fs))) as Hloop.
  rewrite length_sorted_range_keys in Hloop. simpl in Hloop.
  unfold wrapped.
  destruct (Flat.writeEnv_loop _ _ _ _ _ _) as [[e|[]] fs'']; simpl in *.
  - split; [done|]. intros (sData' & tData' & ? & ? & _ & _ & _ & H).
    simplify_eq. rewrite Hsm, Htm in H. simpl in H.
    by apply Hloop in H.
  - split; [|done]. intros _. exists sData, tData.
    rewrite Hsm, Htm. simpl. repeat (split; [done|]). by apply Hloop.
Qed.



(** ** The parser and the scanner: edges *)

(** X10.  Every entry of the mapping that [mapEnv] returns, with or without
    an error, comes from a line [key=value] that the scanner delivered: its
    key holds no [=] and no newline and does not start with [#], its value
    holds no newline, and the line is shorter than the scanner's buffer. *)
Theorem mapEnv_entries_come_from_lines (data k v : string) :
  (mapEnv data).1 !! k = Some v →
  (k +:+ "=" +:+ v) ∈ ScanLines data ∧
  contains k "=" = false ∧ contains k LF = false ∧
  starts_with k "#" = false ∧ contains v LF = false ∧
  too_long (k +:+ "=" +:+ v) = false.
Proof.
  intros H. pose proof (mapEnv_well_formed data k v H) as (? & ? & ? & ?).
  pose proof (mapEnv_fits data k v H) as Hfit. simpl in Hfit.
  apply mapEnv_entry in H as (token & Hin & Hc).
  apply classify_Entry_inv in Hc as (-> & _ & _). done.
Qed.

Lemma mapEnv_entries_come_from_lines_witness :
  ("BAR" +:+ "=" +:+ "2=3") ∈
    ScanLines ("FOO=1" +:+ newline +:+ "BAR=2=3" +:+ newline +:+ "BAD") ∧
  contains "BAR" "=" = false ∧ contains "BAR" LF = false ∧
  starts_with "BAR" "#" = false ∧ contains "2=3" LF = false ∧
  too_long ("BAR" +:+ "=" +:+ "2=3") = false.
Proof.
  apply mapEnv_entries_come_from_lines. by vm_compute.
Defined.

Section scanner_edges.
Implicit Types (res : gmap string string) (line data : string).
Implicit Types (lines parts : list string).

Lemma Split_nonempty data c : Split data c ≠ [].
Proof.
  destruct data as [|a data]; simpl; [done|].
  destruct (Ascii.eqb a c); [done|]. by destruct (Split data c).
Qed.

Lemma Split_append_newline data :
  Split (data +:+ newline) LF = Split data LF ++ [EmptyString].
Proof.
  induction data as [|a data IH]; [done|].
  rewrite append_cons. simpl. rewrite IH.
  destruct (Ascii.eqb a LF); [done|].
  pose proof (Split_nonempty data LF).
  by destruct (Split data LF).
Qed.

Lemma mapEnv_loop_tail res t tokens1 tokens2 :
  (∀ res, mapEnv_loop res tokens1 = mapEnv_loop res tokens2) →
  mapEnv_loop res (t :: tokens1) = mapEnv_loop res (t :: tokens2).
Proof.
  intros H. rewrite !mapEnv_loop_cons. by destruct (classify t).
Qed.

Lemma mapEnv_loop_scan_blank res parts :
  parts ≠ [] →
  mapEnv_loop res (scan (parts ++ [EmptyString])) =
    mapEnv_loop res (scan parts).
Proof.
  intros Hne. revert res. induction parts as [|line parts IH]; [done|].
  intros res. destruct parts as [|line' parts].
  - simpl. replace (too_long EmptyString) with false by by vm_compute.
    case_decide as Hl.
    + subst line. by vm_compute.
    + by destruct (too_long line).
  - change (scan ((line :: line' :: parts) ++ [EmptyString]))
      with (if too_long line then []
            else dropCR line :: scan ((line' :: parts) ++ [EmptyString])).
    change (scan (line :: line' :: parts))
      with (if too_long line then []
            else dropCR line :: scan (line' :: parts)).
    destruct (too_long line); [done|].
    apply mapEnv_loop_tail. intros res'. by apply IH.
Qed.

Lemma dropCR_append_CR line : dropCR (line +:+ String CR EmptyString) = line.
Proof.
  induction line as [|a line IH]; [done|].
  rewrite append_cons. simpl. rewrite IH.
  destruct line; by rewrite ?append_cons, ?append_nil_l.
Qed.

Lemma contains_dropCR_other s c :
  c ≠ CR → contains (dropCR s) c = contains s c.
Proof.
  intros Hc. induction s as [|a s IH]; [done|].
  destruct s as [|b s].
  - cbn [dropCR contains]. destruct (Ascii.eqb a CR) eqn:E; [|reflexivity].
    apply Ascii.eqb_eq in E as ->. cbn [contains].
    assert (Ascii.eqb CR c = false) as -> by (apply Ascii.eqb_neq; congruence).
    done.
  - change (dropCR (String a (String b s)))
      with (String a (dropCR (String b s))).
    cbn [contains] in *. by rewrite IH.
Qed.

Lemma starts_with_dropCR s c :
  c ≠ CR → starts_with (dropCR s) c = starts_with s c.
Proof.
  intros Hc. destruct s as [|a s]; [done|].
  destruct s as [|b s]; [|done].
  cbn [dropCR starts_with]. destruct (Ascii.eqb a CR) eqn:E; [|reflexivity].
  apply Ascii.eqb_eq in E as ->. cbn [starts_with]. symmetry.
  apply Ascii.eqb_neq. congruence.
Qed.

Lemma classify_dropCR_entry k v :
  contains k "=" = false → starts_with k "#" = false →
  ∃ k' v', classify (dropCR (k +:+ "=" +:+ v)) = Entry k' v'.
Proof.
  intros Hk Hh. unfold classify.
  assert (contains (dropCR (k +:+ "=" +:+ v)) "=" = true) as Hc.
  { rewrite contains_dropCR_other by done.
    rewrite contains_append. simpl. by rewrite orb_true_r. }
  case_decide as Hnil; [by rewrite Hnil in Hc|].
  rewrite starts_with_dropCR by done.
  assert (starts_with (k +:+ "=" +:+ v) "#" = false) as ->
    by by destruct k.
  rewrite Hc. eauto.
Qed.
End scanner_edges.

(** X11.  For every input, [mapEnv] returns the same mapping and the same
    error with one more newline at the end of the input: a final line is
    parsed the same with and without its newline, and a trailing blank
    line changes nothing. *)
Theorem mapEnv_final_newline (data : string) :
  mapEnv (data +:+ newline) = mapEnv data.
Proof.
  unfold mapEnv, ScanLines. rewrite Split_append_newline.
  apply mapEnv_loop_scan_blank, Split_nonempty.
Qed.

(** X12.  For every sequence of lines without newline that do not end with
    a carriage return and that, with a carriage return added, are shorter
    than the scanner's buffer, [mapEnv] returns the same mapping and the
    same error for the text with Windows line ends as for the text with
    Unix line ends. *)
Theorem mapEnv_crlf (lines : list string) :
  Forall (λ line, contains line LF = false ∧ last_byte line ≠ Some CR ∧
                  too_long (line +:+ String CR EmptyString) = false) lines →
  mapEnv (terminated_crlf lines) = mapEnv (terminated lines).
Proof.
  intros H. unfold mapEnv, terminated_crlf.
  rewrite !ScanLines_terminated.
  - f_equal. rewrite <-list_fmap_compose. apply list_fmap_ext.
    intros i line Hin%list_elem_of_lookup_2. simpl.
    rewrite Forall_forall in H. apply H in Hin as (_ & Hcr & _).
    by rewrite dropCR_append_CR, dropCR_id.
  - eapply Forall_impl; [exact H|]. by intros line (? & _ & _).
  - eapply Forall_impl; [exact H|]. intros line (_ & _ & Hfit).
    eapply too_long_le; [|exact Hfit]. rewrite length_append. lia.
  - apply Forall_fmap. eapply Forall_impl; [exact H|].
    intros line (Hlf & _ & _). simpl. rewrite contains_append, Hlf. done.
  - apply Forall_fmap. eapply Forall_impl; [exact H|].
    by intros line (_ & _ & Hfit).
Qed.

Lemma mapEnv_crlf_witness :
  mapEnv (terminated_crlf commented_lines) =
    mapEnv (terminated commented_lines).
Proof.
  apply mapEnv_crlf. repeat constructor; by vm_compute.
Defined.

(** ** What becomes of comments and blank lines *)

Section comments.
Implicit Types (fs env res : gmap string string) (flt : faults).

Lemma foldl_add_line_skipped res tokens :
  Forall (λ token, classify token = Skipped) tokens →
  foldl add_line res tokens = res.
Proof.
  intros H. revert res. induction H as [|token tokens Ht _ IH]; intros res;
    [done|].
  simpl. unfold add_line at 2. by rewrite Ht, IH.
Qed.

Lemma mapEnv_skipped data :
  Forall (λ token, classify token = Skipped) (ScanLines data) →
  mapEnv data = (∅, None).
Proof.
  intros H. unfold mapEnv. rewrite mapEnv_loop_valid.
  - by rewrite foldl_add_line_skipped.
  - eapply Forall_impl; [exact H|]. intros token Ht. by rewrite Ht.
Qed.

Lemma filter_is_data_grouped_lines env first prev keys :
  filter (λ line, is_data line) (grouped_lines env first prev keys) =
  filter (λ line, is_data line) ((λ k, k +:+ "=" +:+ env !!! k) <$> keys).
Proof.
  revert first prev. induction keys as [|k keys IH]; intros first prev;
    [done|].
  cbn [grouped_lines]. rewrite fmap_cons, filter_app.
  assert (filter (λ line, is_data line)
            (if decide (before "_" k = prev) then []
             else if first then ["# " +:+ before "_" k]
                  else [EmptyString; "# " +:+ before "_" k]) = []) as ->.
  { case_decide; [done|]. by destruct first. }
  simpl app. rewrite !filter_cons, IH. done.
Qed.
End comments.

(** X13.  When the scanner delivers only blank lines and comments from the
    source and from the target, nothing is left of the target's content.
    The flat [Sync], if the backup copy succeeds, returns nil whatever
    writes would fail, for it writes nothing, and the target is empty
    afterwards.  The grouped [Sync] leaves the target empty as well, and
    returns nil exactly if its one write, of the empty buffer, does not
    fail. *)
Theorem Sync_of_comments_only (flt : faults) (source target : string)
    (fs : gmap string string) sData tData :
  fs !! source = Some sData → fs !! target = Some tData →
  Forall (λ token, classify token = Skipped) (ScanLines sData) →
  Forall (λ token, classify token = Skipped) (ScanLines tData) →
  (backup_copy_fails flt = false →
   (Flat.Sync flt source target fs).1 = None ∧
   (Flat.Sync flt source target fs).2 !! target = Some EmptyString) ∧
  (Grouped.Sync flt source target fs).2 !! target = Some EmptyString ∧
  ((Grouped.Sync flt source target fs).1 = None ↔
   write_fails flt 0 = false).
Proof.
  intros Hs Ht Hsk Htk.
  apply mapEnv_skipped in Hsk. apply mapEnv_skipped in Htk.
  unfold Flat.Sync, Grouped.Sync.
  rewrite Flat_Sync_body_run, Grouped_Sync_body_run, Hs, Ht, Hsk, Htk.
  rewrite (proj1 (appendNewEnv_union ∅ ∅)),
    (proj2 (appendNewEnv_union ∅ ∅)), (left_id_L ∅ (∪)).
  split.
  - intros ->. unfold wrapped, Flat.writeEnv, Flat.writeEnv_from.
    replace (sort_Strings (range_keys (∅ : gmap string string)))
      with (@nil string) by by vm_compute.
    simpl. split; [done|].
    rewrite cleanup_target. apply lookup_insert_eq.
  - erewrite Grouped_writeEnv_run by apply lookup_insert_eq. cbv zeta.
    replace (Grouped.writeEnv_buffer (range_keys ∅) ∅)
      with EmptyString by by vm_compute.
    destruct (write_fails flt 0); simpl; rewrite cleanup_target.
    + split; [apply lookup_insert_eq|done].
    + rewrite insert_insert_eq. split; [apply lookup_insert_eq|done].
Qed.

Lemma Sync_of_comments_only_witness :
  ((Flat.Sync write_faults "a.env" "b.env"
      (<["a.env" := EmptyString]>
         (<["b.env" := "# only a comment" +:+ newline]> ∅))).1 = None ∧
   (Flat.Sync write_faults "a.env" "b.env"
      (<["a.env" := EmptyString]>
         (<["b.env" := "# only a comment" +:+ newline]> ∅))).2 !! "b.env"
     = Some EmptyString) ∧
  (Grouped.Sync write_faults "a.env" "b.env"
     (<["a.env" := EmptyString]>
        (<["b.env" := "# only a comment" +:+ newline]> ∅))).2 !! "b.env"
    = Some EmptyString ∧
  ((Grouped.Sync write_faults "a.env" "b.env"
      (<["a.env" := EmptyString]>
         (<["b.env" := "# only a comment" +:+ newline]> ∅))).1 = None ↔
   write_fails write_faults 0 = false).
Proof.
  destruct (Sync_of_comments_only write_faults "a.env" "b.env"
              (<["a.env" := EmptyString]>
                 (<["b.env" := "# only a comment" +:+ newline]> ∅))
              EmptyString ("# only a comment" +:+ newline))
    as (Hflat & Hgrouped); [reflexivity|reflexivity| | |].
  - by vm_compute.
  - repeat constructor.
  - split; [by apply Hflat|exact Hgrouped].
Defined.

(** X14.  After a flat [Sync] that returns nil, the scanner delivers from
    the target as many lines as the merged mapping has keys, and every one
    of them is an entry: no comment and no blank line of the old target is
    left. *)
Theorem Flat_Sync_leaves_entries_only (flt : faults) (source target : string)
    (fs fs' : gmap string string) :
  Flat.Sync flt source target fs = (None, fs') →
  ∃ sData tData text,
    fs !! source = Some sData ∧ fs !! target = Some tData ∧
    fs' !! target = Some text ∧
    length (ScanLines text) = size ((mapEnv tData).1 ∪ (mapEnv sData).1) ∧
    Forall (λ token, ∃ k v, classify token = Entry k v) (ScanLines text).
Proof.
  intros H. apply Flat_Sync_success
    in H as (sData & tData & sMap & tMap & Hs & Ht & Hsm & Htm & _ & Hfs').
  destruct Hfs' as (Htarget & _).
  exists sData, tData. eexists. repeat (split; [done|]).
  rewrite Hsm, Htm. simpl.
  set (env := tMap ∪ sMap).
  assert (map_Forall well_formed env) as Hwf.
  { pose proof (merged_parsed_well_formed sData tData) as Hm.
    by rewrite Hsm, Htm in Hm. }
  assert (map_Forall (λ k v, too_long (k +:+ "=" +:+ v) = false) env) as Hfit.
  { apply map_Forall_union_2.
    - pose proof (mapEnv_fits tData) as Hm. by rewrite Htm in Hm.
    - pose proof (mapEnv_fits sData) as Hm. by rewrite Hsm in Hm. }
  assert (∀ k, k ∈ sort_Strings (range_keys env) →
               env !! k = Some (env !!! k)) as Hentry.
  { intros k Hin. apply (elem_of_sorted env) in Hin as [v Hv]; [|done].
    by rewrite (lookup_total_correct _ _ _ Hv). }
  rewrite flat_text_lines, ScanLines_terminated.
  - split.
    + by rewrite !length_fmap, length_sorted_range_keys.
    + apply Forall_fmap, Forall_fmap, Forall_forall.
      intros k Hin%Hentry. simpl.
      apply Hwf in Hin as (? & ? & ? & ?). by apply classify_dropCR_entry.
  - apply Forall_fmap, Forall_forall. intros k Hin%Hentry. simpl.
    apply Hwf in Hin as (? & ? & ? & ?). by apply line_no_newline.
  - apply Forall_fmap, Forall_forall. intros k Hin%Hentry. simpl.
    by apply Hfit in Hin.
Qed.

Lemma Flat_Sync_leaves_entries_only_witness :
  ∃ sData tData text,
    (<["target.env" := terminated commented_lines]> example_fs)
      !! "source.env" = Some sData ∧
    (<["target.env" := terminated commented_lines]> example_fs)
      !! "target.env" = Some tData ∧
    (Flat.Sync no_faults "source.env" "target.env"
       (<["target.env" := terminated commented_lines]> example_fs)).2
      !! "target.env" = Some text ∧
    length (ScanLines text) = size ((mapEnv tData).1 ∪ (mapEnv sData).1) ∧
    Forall (λ token, ∃ k v, classify token = Entry k v) (ScanLines text).
Proof.
  apply (Flat_Sync_leaves_entries_only no_faults "source.env" "target.env").
  by vm_compute.
Defined.

(** X15.  For every mapping whose keys and values hold no newline, the
    lines of the grouped writer's buffer that are neither blank nor start
    with [#] are exactly such lines of the flat writer's text, in the same
    order: grouping adds comments and blank lines and nothing else. *)
Theorem grouped_adds_only_comments (env : gmap string string)
    (keys : list string) :
  keys ≡ₚ range_keys env →
  map_Forall (λ k v, contains k LF = false ∧ contains v LF = false) env →
  filter (λ line, is_data line) (Split (Grouped.writeEnv_buffer keys env) LF)
  = filter (λ line, is_data line)
      (Split (flat_text env (sort_Strings keys)) LF).
Proof.
  intros Hkeys Hlf.
  assert (Forall (λ k, contains k LF = false ∧
                       contains (env !!! k) LF = false)
            (sort_Strings keys)) as Hsorted.
  { apply Forall_forall. intros k Hin.
    apply (elem_of_sorted env) in Hin as [v Hv]; [|done].
    rewrite (lookup_total_correct _ _ _ Hv). by apply Hlf in Hv. }
  rewrite Grouped_writeEnv_buffer_text, grouped_text_lines, flat_text_lines.
  rewrite !Split_terminated.
  - by rewrite !filter_app, filter_is_data_grouped_lines.
  - apply Forall_fmap. eapply Forall_impl; [exact Hsorted|].
    intros k [??]. by apply line_no_newline.
  - generalize true, EmptyString.
    induction Hsorted as [|k ks [Hk Hv] _ IH]; intros first prev;
      [constructor|].
    cbn [grouped_lines]. apply Forall_app. split.
    + assert (contains ("# " +:+ before "_" k) LF = false) as Hh.
      { rewrite contains_append. simpl. by apply contains_before. }
      case_decide; [constructor|]. destruct first; repeat constructor; done.
    + constructor; [by apply line_no_newline|apply IH].
Qed.

Lemma grouped_adds_only_comments_witness :
  filter (λ line, is_data line)
    (Split (Grouped.writeEnv_buffer ["ZEBRA"; "APPLE"; "apple_b"]
              example_env) LF)
  = filter (λ line, is_data line)
      (Split (flat_text example_env
                (sort_Strings ["ZEBRA"; "APPLE"; "apple_b"])) LF).
Proof.
  apply grouped_adds_only_comments; [apply example_env_enumeration|].
  by_computation.
Defined.

(** ** Reading the target after a run *)

(** X16.  For every source and target file whose parsed values do not end
    with a carriage return, after a [Sync] that returns nil [mapEnv] reads
    from the new target, without error, the mapping of the old target
    united with the mapping of the source: every key of the old target with
    its old value, whatever the source holds for it, and every other key of
    the source with the source's value.  This holds in the flat variant,
    and in the grouped variant when the group headers fit the scanner's
    buffer. *)
Theorem Sync_target_reads_back (flt : faults) (source target : string)
    (fs fs' : gmap string string) sData tData :
  fs !! source = Some sData → fs !! target = Some tData →
  no_trailing_CR (mapEnv sData).1 → no_trailing_CR (mapEnv tData).1 →
  (Flat.Sync flt source target fs = (None, fs') →
   ∃ text, fs' !! target = Some text ∧
     mapEnv text = ((mapEnv tData).1 ∪ (mapEnv sData).1, None) ∧
     ∀ k v, (mapEnv tData).1 !! k = Some v → (mapEnv text).1 !! k = Some v) ∧
  (headers_fit (mapEnv sData).1 → headers_fit (mapEnv tData).1 →
   Grouped.Sync flt source target fs = (None, fs') →
   ∃ text, fs' !! target = Some text ∧
     mapEnv text = ((mapEnv tData).1 ∪ (mapEnv sData).1, None) ∧
     ∀ k v, (mapEnv tData).1 !! k = Some v → (mapEnv text).1 !! k = Some v).
Proof.
  intros Hs Ht Hcrs Hcrt. split.
  - intros H. apply Flat_Sync_success
      in H as (sData' & tData' & sMap & tMap & Hs' & Ht' & Hsm & Htm & _
               & Htarget & _).
    simplify_eq. eexists. split; [done|].
    assert (mapEnv (flat_text (tMap ∪ sMap)
                      (sort_Strings (range_keys (tMap ∪ sMap)))) =
            (tMap ∪ sMap, None)) as Hback.
    { pose proof (merged_parsed_well_formed sData tData) as Hwf.
      pose proof (merged_parsed_scannable sData tData Hcrs Hcrt) as Hsc.
      rewrite Hsm, Htm in Hwf, Hsc. simpl in Hwf, Hsc.
      apply flat_round_trip; [|done..]. intros k. by apply elem_of_sorted. }
    rewrite Hback, Hsm, Htm. simpl. split; [done|].
    intros k v Hk. by apply lookup_union_Some_l.
  - intros Hhs Hht H. apply Grouped_Sync_success
      in H as (sData' & tData' & sMap & tMap & Hs' & Ht' & Hsm & Htm & _
               & Htarget & _).
    simplify_eq. eexists. split; [done|].
    assert (mapEnv (grouped_text (tMap ∪ sMap) true EmptyString
                      (sort_Strings (range_keys (tMap ∪ sMap)))) =
            (tMap ∪ sMap, None)) as Hback.
    { pose proof (merged_parsed_well_formed sData tData) as Hwf.
      pose proof (merged_parsed_scannable sData tData Hcrs Hcrt) as Hsc.
      rewrite Hsm, Htm in Hwf, Hsc. rewrite Hsm in Hhs. rewrite Htm in Hht.
      simpl in Hwf, Hsc, Hhs, Hht.
      apply grouped_round_trip; [|done..|].
      - intros k. by apply elem_of_sorted.
      - by apply map_Forall_union_2. }
    rewrite Hback, Hsm, Htm. simpl. split; [done|].
    intros k v Hk. by apply lookup_union_Some_l.
Qed.

Lemma Sync_target_reads_back_witness :
  (∃ text,
     (Flat.Sync no_faults "source.env" "target.env" example_fs).2
       !! "target.env" = Some text ∧
     mapEnv text =
       ((mapEnv example_target).1 ∪ (mapEnv example_source).1, None) ∧
     ∀ k v, (mapEnv example_target).1 !! k = Some v →
            (mapEnv text).1 !! k = Some v) ∧
  (∃ text,
     (Grouped.Sync no_faults "source.env" "target.env" example_fs).2
       !! "target.env" = Some text ∧
     mapEnv text =
       ((mapEnv example_target).1 ∪ (mapEnv example_source).1, None) ∧
     ∀ k v, (mapEnv example_target).1 !! k = Some v →
            (mapEnv text).1 !! k = Some v).
Proof.
  split.
  - apply (proj1 (Sync_target_reads_back no_faults "source.env"
                    "target.env" example_fs _ example_source example_target
                    eq_refl eq_refl ltac:(by_computation)
                    ltac:(by_computation))).
    by vm_compute.
  - apply (proj2 (Sync_target_reads_back no_faults "source.env"
                    "target.env" example_fs _ example_source example_target
                    eq_refl eq_refl ltac:(by_computation)
                    ltac:(by_computation))); [by_computation..|].
    by vm_compute.
Defined.
